(** * genmsg_cpp: the C++ message generator of roscpp

    A shallow embedding of [core/roscpp/scripts/genmsg_cpp.py] together with
    the properties its specification states about it.

    The generator writes C++ text into a [StringIO] buffer.  The buffer is
    modelled by its contents and threaded explicitly through every emitter;
    Python exceptions and the (unguarded) recursion of [is_fixed_length] are
    modelled by the three-valued [outcome] type.  The helpers the script
    imports from [roslib] are gathered in the [Roslib] interface. *)

From Stdlib Require Import Ascii ZArith.
From stdpp Require Import base list strings pretty gmap.

Open Scope Z_scope.

(** ** Python string primitives *)

Module Py.

(** The characters that cannot be written inside a string literal here. *)
Definition dquote : ascii := "034"%char.
Definition newline : ascii := "010"%char.
Definition backslash : ascii := "092"%char.
Definition slash : ascii := "047"%char.

Definition Q : string := String dquote "".
Definition NL : string := String newline "".
Definition BS : string := String backslash "".

(** [s.split(sep)] for a one-character separator: the result is never
    empty, and [n] separators give [n + 1] pieces. *)
Fixpoint split (sep : ascii) (s : string) : list string :=
  match s with
  | EmptyString => [EmptyString]
  | String c s' =>
      if decide (c = sep) then EmptyString :: split sep s'
      else match split sep s' with
           | [] => [String c EmptyString]
           | w :: ws => String c w :: ws
           end
  end.

(** [s.replace(old, new)] for a one-character [old]; a new string is
    returned and [s] itself is left as it was. *)
Fixpoint replace (old : ascii) (new : string) (s : string) : string :=
  match s with
  | EmptyString => EmptyString
  | String c s' =>
      if decide (c = old) then new +:+ replace old new s'
      else String c (replace old new s')
  end.

Definition is_lower (c : ascii) : bool :=
  (97 <=? nat_of_ascii c)%nat && (nat_of_ascii c <=? 122)%nat.

Definition upper_ascii (c : ascii) : ascii :=
  if is_lower c then ascii_of_nat (nat_of_ascii c - 32) else c.

(** [s.upper()] on a byte string in the C locale. *)
Fixpoint upper (s : string) : string :=
  match s with
  | EmptyString => EmptyString
  | String c s' => String (upper_ascii c) (upper s')
  end.

(** [c in s] for a character. *)
Fixpoint contains (c : ascii) (s : string) : bool :=
  match s with
  | EmptyString => false
  | String c' s' => bool_decide (c' = c) || contains c s'
  end.

Fixpoint concat (l : list string) : string :=
  match l with
  | [] => EmptyString
  | x :: l' => x +:+ concat l'
  end.

(** [set(l)] is filled by adding the elements of [l] one after the other;
    adding an element that is already there changes nothing.  [add_all]
    keeps the distinct elements in the order in which they came in. *)
Fixpoint add_all (table : list string) (l : list string) : list string :=
  match l with
  | [] => table
  | x :: l' =>
      add_all (if decide (x ∈ table) then table else table ++ [x]) l'
  end.

Definition distinct (l : list string) : list string := add_all [] l.

End Py.

Import Py.

(** ** Exceptions and outcomes *)

Inductive exn : Type :=
  | ValueError (msg : string)
  | KeyError (key : string)
  | IndexError
  | MsgSpecException (msg : string).

(** What a call does: return a value, raise, or exhaust the recursion
    budget of the model (the source has no cycle guard). *)
Inductive outcome (A : Type) : Type :=
  | Ret (a : A)
  | Raise (e : exn)
  | OutOfFuel.
Arguments Ret {A} a.
Arguments Raise {A} e.
Arguments OutOfFuel {A}.

Global Instance outcome_ret : MRet outcome := λ A a, Ret a.
Global Instance outcome_bind : MBind outcome := λ A B f m,
  match m with
  | Ret a => f a
  | Raise e => Raise e
  | OutOfFuel => OutOfFuel
  end.

Definition of_sum {A} (r : exn + A) : outcome A :=
  match r with
  | inl e => Raise e
  | inr a => Ret a
  end.

(** ** The output buffer *)

Definition StringIO : Type := string.
Definition write (s : StringIO) (text : string) : StringIO := s +:+ text.
Definition getvalue (s : StringIO) : string := s.

(** ** Message specifications, as [roslib.msgs] hands them over *)

(** A constant of a message; [val] is the text [%s] prints for its value. *)
Record Constant : Type := mkConstant {
  const_type : string;
  const_name : string;
  const_val : string
}.

(** [fields] is what [spec.fields()] returns: the (type, name) pairs in
    declaration order. *)
Record MsgSpec : Type := mkMsgSpec {
  fields : list (string * string);
  constants : list Constant;
  has_header : bool
}.

(** ** The roslib collaborators

    None of these is defined in the script.  [parse_type] is total here:
    the field types of a loaded specification have been validated by the
    parser.  [load_by_type] and [load_from_file] may raise. *)
Class Roslib : Type := {
  parse_type : string → string * bool * option Z;
  is_builtin : string → bool;
  is_header_type : string → bool;
  package_resource_name : string → string * string;
  load_by_type : string → string → exn + (string * MsgSpec);
  gendeps_dict : Type;
  get_dependencies : MsgSpec → string → gendeps_dict;
  compute_md5 : gendeps_dict → string;
  compute_full_text : gendeps_dict → string;
  get_dir_pkg : string → string * string;
  load_from_file : string → exn + (string * MsgSpec)
}.

(** ** Python's sets

    The order in which a set is walked depends on the hashes of its
    elements: it is some arrangement of the distinct elements, fixed by
    the sequence in which they were added. *)
Class PySet : Type := {
  hash_order : list string → list string;
  hash_order_perm : ∀ l, NoDup l → hash_order l ≡ₚ l
}.

Section Generator.

Context `{R : Roslib} `{P : PySet}.

(** *** Metadata: the escaped definition text *)

Definition compute_full_text_escaped (gen_deps_dict : gendeps_dict) : string :=
  let definition := compute_full_text gen_deps_dict in
  let lines := split newline definition in
  let s : StringIO := "" in
  let s :=
    foldl (λ (s : StringIO) (line : string),
             let _ := replace backslash (BS +:+ BS) line in
             let _ := replace dquote (BS +:+ Q) line in
             write s (Q +:+ line +:+ BS +:+ "n" +:+ Q +:+ NL))
          s lines in
  getvalue s.

(** *** The type mapper *)

Definition MSG_TYPE_TO_CPP : gmap string string :=
  list_to_map
    [("byte", "int8_t"); ("char", "uint8_t");
     ("bool", "uint8_t");
     ("uint8", "uint8_t"); ("int8", "int8_t");
     ("uint16", "uint16_t"); ("int16", "int16_t");
     ("uint32", "uint32_t"); ("int32", "int32_t");
     ("uint64", "uint64_t"); ("int64", "int64_t");
     ("float32", "float");
     ("float64", "double");
     ("string", "std::string");
     ("time", "ros::Time");
     ("duration", "ros::Duration")].

Definition msg_type_to_cpp (type : string) : outcome string :=
  let '(base_type, is_array, array_len) := parse_type type in
  cpp_type ←
    (if is_builtin base_type then
       match MSG_TYPE_TO_CPP !! base_type with
       | Some t => Ret t
       | None => Raise (KeyError base_type)
       end
     else
       match split slash base_type with
       | [_] =>
           if is_header_type base_type then Ret "roslib::Header"
           else Ret base_type
       | pkg :: msg :: _ => Ret (pkg +:+ "::" +:+ msg)
       | [] => Raise IndexError
       end);
  if is_array then
    match array_len with
    | None => Ret ("std::vector<" +:+ cpp_type +:+ ">")
    | Some n =>
        Ret ("boost::array<" +:+ cpp_type +:+ ", " +:+ pretty n +:+ ">")
    end
  else Ret cpp_type.

(** *** Guard and includes *)

Definition write_begin (s : StringIO) (pkg msg file : string) : StringIO :=
  let s := write s ("/* Auto-generated by genmsg_cpp for file "
                    +:+ file +:+ " */" +:+ NL) in
  let s := write s ("#ifndef " +:+ upper pkg +:+ "_" +:+ upper msg
                    +:+ "_H" +:+ NL) in
  write s ("#define " +:+ upper pkg +:+ "_" +:+ upper msg +:+ "_H" +:+ NL).

Definition write_end (s : StringIO) (pkg msg : string) : StringIO :=
  write s ("#endif // " +:+ upper pkg +:+ "_" +:+ upper msg +:+ "_H" +:+ NL).

Definition write_includes (s : StringIO) (spec : MsgSpec) : StringIO :=
  let s := write s ("#include <string>" +:+ NL) in
  let s := write s ("#include <vector>" +:+ NL) in
  let s := write s ("#include " +:+ Q +:+ "ros/serialization.h" +:+ Q +:+ NL) in
  let s := write s ("#include " +:+ Q +:+ "ros/builtin_message_traits.h"
                    +:+ Q +:+ NL) in
  let s := write s ("#include " +:+ Q +:+ "ros/message.h" +:+ Q +:+ NL) in
  let s := write s ("#include " +:+ Q +:+ "ros/time.h" +:+ Q +:+ NL +:+ NL) in
  let s :=
    foldl (λ (s : StringIO) '(type, name),
             let '(base_type, is_array, array_len) := parse_type type in
             if negb (is_builtin base_type) then
               if is_header_type base_type then
                 write s ("#include " +:+ Q +:+ "roslib/Header.h" +:+ Q +:+ NL)
               else
                 write s ("#include " +:+ Q +:+ base_type +:+ ".h" +:+ Q +:+ NL)
             else s)
          s (fields spec) in
  write s NL.

(** *** Members, constructor, constants *)

Definition default_value (type : string) : string :=
  if bool_decide (type ∈ ["byte"; "int8"; "int16"; "int32"; "int64";
                          "char"; "uint8"; "uint16"; "uint32"; "uint64"])
  then "0"
  else if bool_decide (type ∈ ["float32"; "float64"]) then "0.0"
  else if bool_decide (type = "bool") then "false"
  else "".

(** The first loop of [write_constructor]; [i] counts the initializers
    written so far. *)
Fixpoint write_initializers (s : StringIO) (i : nat)
    (fs : list (string * string)) : StringIO :=
  match fs with
  | [] => s
  | (type, name) :: fs' =>
      let '(base_type, is_array, array_len) := parse_type type in
      if is_array then write_initializers s i fs'
      else
        let s := if (i =? 0)%nat then write s "  : " else write s "  , " in
        let s := write s ("  " +:+ name +:+ "(" +:+ default_value base_type
                          +:+ ")" +:+ NL) in
        write_initializers s (i + 1)%nat fs'
  end.

Definition write_constructor (s : StringIO) (msg : string) (spec : MsgSpec)
    : StringIO :=
  let s := write s ("  " +:+ msg +:+ "()" +:+ NL) in
  let fields := fields spec in
  let s := write_initializers s 0%nat fields in
  let s := write s ("  {" +:+ NL) in
  let s :=
    foldl (λ (s : StringIO) '(type, name),
             let '(base_type, is_array, array_len) := parse_type type in
             if negb is_array || bool_decide (array_len = None) then s
             else
               let val := default_value base_type in
               if (0 <? String.length val)%nat then
                 write s ("    " +:+ name +:+ ".assign(" +:+ val +:+ ");" +:+ NL)
               else s)
          s fields in
  write s ("  }" +:+ NL +:+ NL).

Definition write_member (s : StringIO) (type name : string)
    : outcome StringIO :=
  cpp_type ← msg_type_to_cpp type;
  let s := write s ("  typedef " +:+ cpp_type +:+ " _" +:+ name +:+ "_type;"
                    +:+ NL) in
  Ret (write s ("  " +:+ cpp_type +:+ " " +:+ name +:+ ";" +:+ NL +:+ NL)).

(** A loop whose body may raise: the first exception ends it. *)
Fixpoint for_each {A B : Type} (body : A → B → outcome A) (a : A)
    (l : list B) : outcome A :=
  match l with
  | [] => Ret a
  | x :: l' => a' ← body a x; for_each body a' l'
  end.

Definition write_members (s : StringIO) (spec : MsgSpec) : outcome StringIO :=
  for_each (λ s '(type, name), write_member s type name) s (fields spec).

Definition write_constant (s : StringIO) (constant : Constant)
    : outcome StringIO :=
  if negb (bool_decide
             (const_type constant ∈
                ["byte"; "int8"; "int16"; "int32"; "int64";
                 "char"; "uint8"; "uint16"; "uint32"; "uint64";
                 "float32"; "float64"]))
  then Raise (ValueError (const_type constant +:+ " not supported as a constant"))
  else
    cpp_type ← msg_type_to_cpp (const_type constant);
    Ret (write s ("  static const " +:+ cpp_type +:+ " "
                  +:+ const_name constant +:+ " = " +:+ const_val constant
                  +:+ ";" +:+ NL)).

Definition write_constants (s : StringIO) (spec : MsgSpec) : outcome StringIO :=
  s ← for_each write_constant s (constants spec);
  Ret (write s NL).

(** *** Fixed-length analysis *)

(** The first loop of [is_fixed_length]: [None] stands for its early
    [return False], [Some types] for the list built by [types.append]. *)
Fixpoint collect_types (fs : list (string * string)) (types : list string)
    : option (list string) :=
  match fs with
  | [] => Some types
  | (type, name) :: fs' =>
      let '(base_type, is_array, array_len) := parse_type type in
      if is_array && bool_decide (array_len = None) then None
      else if bool_decide (base_type = "string") then None
      else if negb (is_builtin base_type)
           then collect_types fs' (types ++ [base_type])
           else collect_types fs' types
  end.

(** [types = set(types)], in the order the second loop walks it. *)
Definition set_of_types (types : list string) : list string :=
  hash_order (distinct types).

(** The second loop; [rec] is the recursive call. *)
Fixpoint check_types (rec : MsgSpec → string → outcome bool)
    (package : string) (types : list string) : outcome bool :=
  match types with
  | [] => Ret true
  | type :: types' =>
      let '(pkg, name) := package_resource_name type in
      let pkg := if bool_decide (pkg = "") then package else pkg in
      '(_, new_spec) ← of_sum (load_by_type type pkg);
      b ← rec new_spec pkg;
      if negb b then Ret false else check_types rec package types'
  end.

(** [fuel] bounds the depth of the recursion through nested types. *)
Fixpoint is_fixed_length (fuel : nat) (spec : MsgSpec) (package : string)
    : outcome bool :=
  match fuel with
  | O => OutOfFuel
  | S fuel' =>
      match collect_types (fields spec) [] with
      | None => Ret false
      | Some types =>
          let types := set_of_types types in
          check_types (is_fixed_length fuel') package types
      end
  end.

(** *** The struct *)

Definition write_deprecated_member_functions (s : StringIO) (spec : MsgSpec)
    (pkg msg : string) : StringIO :=
  let cpp_msg := pkg +:+ "::" +:+ msg in
  let s := write s ("  virtual const std::string __getDataType() const { return ros::message_traits::datatype<" +:+ cpp_msg +:+ ">(); }" +:+ NL) in
  let s := write s ("  virtual const std::string __getMD5Sum() const { return ros::message_traits::md5sum<" +:+ cpp_msg +:+ ">(); }" +:+ NL) in
  let s := write s ("  virtual const std::string __getMessageDefinition() const { return ros::message_traits::definition<" +:+ cpp_msg +:+ ">(); }" +:+ NL) in
  let s := write s ("  virtual uint32_t serializationLength() const { return ros::serialization::Serializer<" +:+ cpp_msg +:+ ">::serializedLength(*this); }" +:+ NL) in
  let s := write s ("  virtual uint8_t *serialize(uint8_t *write_ptr, uint32_t seq) const { ros::serialization::Buffer b(write_ptr, 1000000000); b = ros::serialization::Serializer<" +:+ cpp_msg +:+ ">::write(b, *this); return b.data; }" +:+ NL) in
  write s ("  virtual uint8_t *deserialize(uint8_t *read_ptr) { ros::serialization::Buffer b(read_ptr, 1000000000); b = ros::serialization::Serializer<" +:+ cpp_msg +:+ ">::read(b, *this); return b.data; }" +:+ NL +:+ NL).

Definition write_struct (s : StringIO) (spec : MsgSpec) (pkg msg : string)
    : outcome StringIO :=
  let s := write s ("struct " +:+ msg +:+ " : public ros::Message" +:+ NL
                    +:+ "{" +:+ NL) in
  let s := write_constructor s msg spec in
  s ← write_members s spec;
  s ← write_constants s spec;
  let s := write_deprecated_member_functions s spec pkg msg in
  let cpp_msg := pkg +:+ "::" +:+ msg in
  let s := write s ("  typedef boost::shared_ptr<" +:+ cpp_msg +:+ "> Ptr;"
                    +:+ NL) in
  let s := write s ("  typedef boost::shared_ptr<" +:+ cpp_msg
                    +:+ " const> ConstPtr;" +:+ NL) in
  let s := write s ("}; // struct " +:+ msg +:+ NL) in
  let s := write s ("typedef boost::shared_ptr<" +:+ cpp_msg +:+ "> " +:+ msg
                    +:+ "Ptr;" +:+ NL) in
  Ret (write s ("typedef boost::shared_ptr<" +:+ cpp_msg +:+ " const> "
                +:+ msg +:+ "ConstPtr;" +:+ NL)).

Definition write_struct_bodies (s : StringIO) (spec : MsgSpec)
    (pkg msg : string) : StringIO := s.

(** *** Traits *)

Definition write_traits_declarations (s : StringIO) (spec : MsgSpec)
    (pkg msg : string) : StringIO :=
  let cpp_msg := pkg +:+ "::" +:+ msg in
  let s := write s ("namespace ros" +:+ NL +:+ "{" +:+ NL) in
  let s := write s ("namespace message_traits" +:+ NL +:+ "{" +:+ NL) in
  let s := write s ("template<> inline const char* md5sum<" +:+ cpp_msg
                    +:+ ">();" +:+ NL) in
  let s := write s ("template<> inline const char* datatype<" +:+ cpp_msg
                    +:+ ">();" +:+ NL) in
  let s := write s ("template<> inline const char* definition<" +:+ cpp_msg
                    +:+ ">();" +:+ NL) in
  let s := write s ("} // namespace message_traits" +:+ NL) in
  write s ("} // namespace ros" +:+ NL +:+ NL).

Definition write_traits_bodies (fuel : nat) (s : StringIO) (spec : MsgSpec)
    (pkg msg : string) : outcome StringIO :=
  let gendeps_dict := get_dependencies spec pkg in
  let md5sum := compute_md5 gendeps_dict in
  let full_text := compute_full_text_escaped gendeps_dict in
  let cpp_msg := pkg +:+ "::" +:+ msg in
  let s := write s ("namespace ros" +:+ NL +:+ "{" +:+ NL) in
  let s := write s ("namespace message_traits" +:+ NL +:+ "{" +:+ NL) in
  let s := write s ("template<> inline const char* md5sum<" +:+ cpp_msg
                    +:+ ">() { return " +:+ Q +:+ md5sum +:+ Q +:+ "; }"
                    +:+ NL) in
  let s := write s ("template<> inline const char* datatype<" +:+ cpp_msg
                    +:+ ">() { return " +:+ Q +:+ pkg +:+ "/" +:+ msg +:+ Q
                    +:+ "; }" +:+ NL) in
  let s := write s ("template<> inline const char* definition<" +:+ cpp_msg
                    +:+ ">()" +:+ NL +:+ "{" +:+ NL +:+ "  return" +:+ NL) in
  let s := write s full_text in
  let s := write s (";" +:+ NL +:+ "}" +:+ NL +:+ NL) in
  let s :=
    if has_header spec then
      let s := write s ("template<> struct HasHeader<" +:+ cpp_msg
                        +:+ "> : public TrueType {};" +:+ NL) in
      write s ("template<> inline roslib::Header* getHeader(" +:+ cpp_msg
               +:+ "& m) { return &m.header; }" +:+ NL)
    else s in
  fixed ← is_fixed_length fuel spec pkg;
  let s :=
    if (fixed : bool) then
      write s ("template<> struct IsFixedSize<" +:+ cpp_msg
               +:+ "> : public TrueType {};" +:+ NL)
    else s in
  let s := write s NL in
  let s := write s ("} // namespace message_traits" +:+ NL) in
  Ret (write s ("} // namespace ros" +:+ NL +:+ NL)).

(** *** Serialization *)

Definition write_serialization_declarations (s : StringIO) (spec : MsgSpec)
    (pkg msg : string) : StringIO :=
  let cpp_msg := pkg +:+ "::" +:+ msg in
  let s := write s ("namespace ros" +:+ NL +:+ "{" +:+ NL) in
  let s := write s ("namespace serialization" +:+ NL +:+ "{" +:+ NL) in
  let s := write s ("template<> struct Serializer<" +:+ cpp_msg +:+ ">" +:+ NL
                    +:+ "{" +:+ NL) in
  let s := write s ("  inline static Buffer write(Buffer buffer, const "
                    +:+ cpp_msg +:+ "& m);" +:+ NL) in
  let s := write s ("  inline static Buffer read(Buffer buffer, " +:+ cpp_msg
                    +:+ "& m);" +:+ NL) in
  let s := write s ("  inline static uint32_t serializedLength(const "
                    +:+ cpp_msg +:+ "& m);" +:+ NL) in
  let s := write s ("};" +:+ NL) in
  let s := write s ("} // namespace serialization" +:+ NL) in
  write s ("} // namespace ros" +:+ NL +:+ NL).

Definition write_serialization_bodies (s : StringIO) (spec : MsgSpec)
    (pkg msg : string) : StringIO :=
  let cpp_msg := pkg +:+ "::" +:+ msg in
  let fields := fields spec in
  let s := write s ("namespace ros" +:+ NL +:+ "{" +:+ NL) in
  let s := write s ("namespace serialization" +:+ NL +:+ "{" +:+ NL +:+ NL) in
  let s := write s ("inline Buffer Serializer<" +:+ cpp_msg
                    +:+ ">::write(Buffer buffer, const " +:+ cpp_msg
                    +:+ "& m)" +:+ NL +:+ "{" +:+ NL) in
  let s :=
    foldl (λ (s : StringIO) '(type, name),
             write s ("  buffer = serialize(buffer, m." +:+ name +:+ ");"
                      +:+ NL))
          s fields in
  let s := write s ("  return buffer;" +:+ NL +:+ "}" +:+ NL +:+ NL) in
  let s := write s ("inline Buffer Serializer<" +:+ cpp_msg
                    +:+ ">::read(Buffer buffer, " +:+ cpp_msg
                    +:+ "& m)" +:+ NL +:+ "{" +:+ NL) in
  let s :=
    foldl (λ (s : StringIO) '(type, name),
             write s ("  buffer = deserialize(buffer, m." +:+ name +:+ ");"
                      +:+ NL))
          s fields in
  let s := write s ("  return buffer;" +:+ NL +:+ "}" +:+ NL +:+ NL) in
  let s := write s ("inline uint32_t Serializer<" +:+ cpp_msg
                    +:+ ">::serializedLength(const " +:+ cpp_msg
                    +:+ "& m)" +:+ NL +:+ "{" +:+ NL) in
  let s := write s ("  uint32_t size = 0;" +:+ NL) in
  let s :=
    foldl (λ (s : StringIO) '(type, name),
             write s ("  size += serializationLength(m." +:+ name +:+ ");"
                      +:+ NL))
          s fields in
  let s := write s ("  return size;" +:+ NL +:+ "}" +:+ NL +:+ NL) in
  let s := write s ("} // namespace serialization" +:+ NL) in
  write s ("} // namespace ros" +:+ NL +:+ NL).

(** *** The orchestrator *)

(** What [generate] leaves behind: the file it writes and its contents
    ([print >> f] appends a newline to the buffer). *)
Record OutputUnit : Type := mkOutputUnit {
  unit_path : string;
  unit_text : string
}.

Definition generate (fuel : nat) (msg_path : string) : outcome OutputUnit :=
  let '(package_dir, package) := get_dir_pkg msg_path in
  '(name, spec) ← of_sum (load_from_file msg_path);
  let s : StringIO := "" in
  let s := write_begin s package name msg_path in
  let s := write_includes s spec in
  let s := write s ("namespace " +:+ package +:+ " { struct " +:+ name
                    +:+ "; }" +:+ NL +:+ NL) in
  let s := write_traits_declarations s spec package name in
  let s := write_serialization_declarations s spec package name in
  let s := write s ("namespace " +:+ package +:+ NL +:+ "{" +:+ NL) in
  s ← write_struct s spec package name;
  let s := write_struct_bodies s spec package name in
  let s := write s ("} // namespace " +:+ package +:+ NL +:+ NL) in
  s ← write_traits_bodies fuel s spec package name;
  let s := write_serialization_bodies s spec package name in
  let s := write_end s package name in
  let output_dir := package_dir +:+ "/msg/cpp/" +:+ package in
  Ret {| unit_path := output_dir +:+ "/" +:+ name +:+ ".h";
         unit_text := getvalue s +:+ NL |}.

End Generator.

(** ** A concrete roslib, for running the generator on examples *)

Module RoslibModel.

(** Modelled from the spec: the builtin kinds of [roslib.msgs.is_builtin],
    which is not part of the script: signed and unsigned integers of
    widths 8 to 64, two float widths, bool, the byte and char aliases,
    string, time and duration. *)
Definition BUILTIN_TYPES : list string :=
  ["int8"; "uint8"; "int16"; "uint16"; "int32"; "uint32"; "int64"; "uint64";
   "float32"; "float64"; "string"; "bool"; "char"; "byte";
   "time"; "duration"].

Definition is_builtin (msg_type_name : string) : bool :=
  bool_decide (msg_type_name ∈ BUILTIN_TYPES).

(** Modelled from the spec: [roslib.msgs.is_header_type], the conventional
    header type under either of its spellings. *)
Definition is_header_type (type_ : string) : bool :=
  bool_decide (type_ ∈ ["Header"; "roslib/Header"]).

(** The digits of a fixed array length, up to the closing bracket. *)
Fixpoint parse_len (s : string) (acc : Z) : option Z :=
  match s with
  | EmptyString => None
  | String c s' =>
      if decide (c = "]"%char) then
        if decide (s' = EmptyString) then Some acc else None
      else
        match Ascii.is_nat c with
        | Some d => parse_len s' (10 * acc + Z.of_nat d)
        | None => None
        end
  end.

(** Modelled from the spec: [roslib.msgs.parse_type], the array modifier
    of a field type: [T] is a scalar, [T[]] a variable-length array and
    [T[n]] an array of fixed length [n].  Types of any other form do not
    occur in a loaded specification; they are returned as scalars. *)
Definition parse_type (type_ : string) : string * bool * option Z :=
  match split "["%char type_ with
  | [base; rest] =>
      if decide (rest = "]") then (base, true, None)
      else match parse_len rest 0 with
           | Some n => (base, true, Some n)
           | None => (type_, false, None)
           end
  | _ => (type_, false, None)
  end.

(** Modelled from the spec: [roslib.names.package_resource_name], which
    splits [pkg/name] and gives a bare name the empty package. *)
Definition package_resource_name (name : string) : string * string :=
  match split slash name with
  | [pkg; base] => (pkg, base)
  | _ => ("", name)
  end.

Fixpoint assoc {K V : Type} `{EqDecision K} (k : K) (l : list (K * V))
    : option V :=
  match l with
  | [] => None
  | (k', v) :: l' => if decide (k = k') then Some v else assoc k l'
  end.

(** The world outside the script: the message files on disk and the
    digest service. *)
Record World : Type := mkWorld {
  msg_db : list (string * string * MsgSpec);
  msg_files : list (string * (string * string * string * MsgSpec));
  digest_of : MsgSpec → string → string * string
}.

(** Modelled from the spec: the schema lookup [roslib.msgs.load_by_type],
    keyed by (package or owning package, name); it fails if the type
    cannot be located. *)
Definition load_by_type (w : World) (msgtype package_context : string)
    : exn + (string * MsgSpec) :=
  let '(pkg, basetype) := package_resource_name msgtype in
  let pkg := if bool_decide (pkg = "") then package_context else pkg in
  match assoc (pkg, basetype) (msg_db w) with
  | Some spec => inr (pkg +:+ "/" +:+ basetype, spec)
  | None => inl (MsgSpecException ("Cannot locate message type " +:+ msgtype))
  end.

(** Modelled from the spec: the schema parser [roslib.msgs.load_from_file]
    and [roslib.packages.get_dir_pkg], reading the files of the world. *)
Definition load_from_file (w : World) (path : string)
    : exn + (string * MsgSpec) :=
  match assoc path (msg_files w) with
  | Some (_, _, name, spec) => inr (name, spec)
  | None => inl (MsgSpecException ("cannot read " +:+ path))
  end.

Definition get_dir_pkg (w : World) (path : string) : string * string :=
  match assoc path (msg_files w) with
  | Some (dir, pkg, _, _) => (dir, pkg)
  | None => ("", "")
  end.

(** Modelled from the spec: the dependency digest service of
    [roslib.gentools], a content hash and the concatenated definition. *)
Definition roslib (w : World) : Roslib :=
  Build_Roslib parse_type is_builtin is_header_type package_resource_name
    (load_by_type w) (string * string) (digest_of w) fst snd
    (get_dir_pkg w) (load_from_file w).

(** A world with nothing on disk, whose digest service answers with the
    given hash and text. *)
Definition empty_world (md5 text : string) : World :=
  {| msg_db := []; msg_files := []; digest_of := λ _ _, (md5, text) |}.

(** A set order to run the examples with: the one in which stdpp walks a
    finite set of strings. *)
Definition gset_order_perm (l : list string) :
  NoDup l → elements (list_to_set l : gset string) ≡ₚ l.
Proof. apply elements_list_to_set. Defined.

Definition gset_order : PySet :=
  {| hash_order := λ l, elements (list_to_set l : gset string);
     hash_order_perm := gset_order_perm |}.

End RoslibModel.

(** ** The vocabulary of the specification *)

Section Vocabulary.

Context `{R : Roslib} `{P : PySet}.

Definition base_type_of (type : string) : string := (parse_type type).1.1.
Definition is_array_of (type : string) : bool := (parse_type type).1.2.
Definition array_len_of (type : string) : option Z := (parse_type type).2.

(** *** Definition text *)

(** One line of the definition as a literal fragment ending in an escaped
    newline. *)
Definition fragment (line : string) : string :=
  Q +:+ line +:+ BS +:+ "n" +:+ Q +:+ NL.

(** A line with its backslashes and double quotes escaped. *)
Definition escape_line (line : string) : string :=
  replace dquote (BS +:+ Q) (replace backslash (BS +:+ BS) line).

(** The escaped definition text as the docstring describes it. *)
Definition full_text_escaped_spec (definition : string) : string :=
  concat (map (λ line, fragment (escape_line line))
              (split newline definition)).

(** Inside a double-quoted C++ literal every double quote is preceded by
    a backslash that escapes it, and no backslash stands alone;
    [esc] tells whether the previous character opened an escape. *)
Fixpoint literal_safe (esc : bool) (s : string) : bool :=
  match s with
  | EmptyString => negb esc
  | String c s' =>
      if esc then literal_safe false s'
      else if bool_decide (c = backslash) then literal_safe true s'
      else if bool_decide (c = dquote) then false
      else literal_safe false s'
  end.

(** *** Constant kinds *)

Definition numeric_kinds : list string :=
  ["byte"; "int8"; "int16"; "int32"; "int64";
   "char"; "uint8"; "uint16"; "uint32"; "uint64";
   "float32"; "float64"].

Definition numeric_or_bool_kinds : list string := numeric_kinds ++ ["bool"].

Definition constant_binding (cpp_type name val : string) : string :=
  "  static const " +:+ cpp_type +:+ " " +:+ name +:+ " = " +:+ val
  +:+ ";" +:+ NL.

(** *** Fixed length *)

(** The package a referenced type is looked up in: its own, or the
    owning package for a bare name. *)
Definition lookup_package (type package : string) : string :=
  if bool_decide ((package_resource_name type).1 = "") then package
  else (package_resource_name type).1.

(** A field type that by itself makes a schema variable-length. *)
Definition variable_length_type (type : string) : bool :=
  (is_array_of type && bool_decide (array_len_of type = None))
  || bool_decide (base_type_of type = "string").

(** The base types of the composite fields, in field order. *)
Definition composite_types (fs : list (string * string)) : list string :=
  filter (λ b, is_builtin b = false) (base_type_of <$> fs.*1).

(** Every composite type reachable from the schema resolves, and the
    chain of references ends: the dependency graph below the schema is
    acyclic. *)
Inductive resolves : MsgSpec → string → Prop :=
  | resolves_intro spec package :
      (∀ type, type ∈ composite_types (fields spec) →
         ∃ r, load_by_type type (lookup_package type package) = inr r) →
      (∀ type r, type ∈ composite_types (fields spec) →
         load_by_type type (lookup_package type package) = inr r →
         resolves r.2 (lookup_package type package)) →
      resolves spec package.

(** [is_fixed_length(spec, package)] returns [b]: every deep enough
    recursion budget gives [b]. *)
Definition returns (spec : MsgSpec) (package : string) (b : bool) : Prop :=
  ∃ fuel, ∀ n, (fuel ≤ n)%nat → is_fixed_length n spec package = Ret b.

(** Conditions (1) and (2): no variable-length array, no string. *)
Definition no_variable_array (spec : MsgSpec) : Prop :=
  ∀ type, type ∈ (fields spec).*1 →
    ¬ (is_array_of type = true ∧ array_len_of type = None).

Definition no_string (spec : MsgSpec) : Prop :=
  ∀ type, type ∈ (fields spec).*1 → base_type_of type ≠ "string".

(** Condition (3): every referenced schema is itself fixed-length. *)
Definition nested_fixed (spec : MsgSpec) (package : string) : Prop :=
  ∀ type r, type ∈ composite_types (fields spec) →
    load_by_type type (lookup_package type package) = inr r →
    returns r.2 (lookup_package type package) true.

(** *** Lookups *)

(** The second loop of [is_fixed_length] together with a log of the calls
    it makes to [load_by_type], as (type, package) pairs in call order. *)
Fixpoint check_types_log (rec : MsgSpec → string → outcome bool)
    (package : string) (types : list string)
    : list (string * string) * outcome bool :=
  match types with
  | [] => ([], Ret true)
  | type :: types' =>
      let '(pkg, name) := package_resource_name type in
      let pkg := if bool_decide (pkg = "") then package else pkg in
      match load_by_type type pkg with
      | inl e => ([(type, pkg)], Raise e)
      | inr (_, new_spec) =>
          match rec new_spec pkg with
          | Ret b =>
              if negb b then ([(type, pkg)], Ret false)
              else
                let '(log, o) := check_types_log rec package types' in
                ((type, pkg) :: log, o)
          | Raise e => ([(type, pkg)], Raise e)
          | OutOfFuel => ([(type, pkg)], OutOfFuel)
          end
      end
  end.

(** One call of [is_fixed_length] with the lookups that this call makes
    itself (those of the recursive calls are not listed). *)
Definition is_fixed_length_log (fuel : nat) (spec : MsgSpec)
    (package : string) : list (string * string) * outcome bool :=
  match fuel with
  | O => ([], OutOfFuel)
  | S fuel' =>
      match collect_types (fields spec) [] with
      | None => ([], Ret false)
      | Some types =>
          let types := set_of_types types in
          check_types_log (is_fixed_length fuel') package types
      end
  end.

(** *** Serialization statements *)

Definition serialize_stmt (name : string) : string :=
  "  buffer = serialize(buffer, m." +:+ name +:+ ");" +:+ NL.
Definition deserialize_stmt (name : string) : string :=
  "  buffer = deserialize(buffer, m." +:+ name +:+ ");" +:+ NL.
Definition length_stmt (name : string) : string :=
  "  size += serializationLength(m." +:+ name +:+ ");" +:+ NL.

Definition write_routine (cpp_msg : string) (names : list string) : string :=
  "inline Buffer Serializer<" +:+ cpp_msg +:+ ">::write(Buffer buffer, const "
  +:+ cpp_msg +:+ "& m)" +:+ NL +:+ "{" +:+ NL
  +:+ concat (serialize_stmt <$> names)
  +:+ "  return buffer;" +:+ NL +:+ "}" +:+ NL +:+ NL.

Definition read_routine (cpp_msg : string) (names : list string) : string :=
  "inline Buffer Serializer<" +:+ cpp_msg +:+ ">::read(Buffer buffer, "
  +:+ cpp_msg +:+ "& m)" +:+ NL +:+ "{" +:+ NL
  +:+ concat (deserialize_stmt <$> names)
  +:+ "  return buffer;" +:+ NL +:+ "}" +:+ NL +:+ NL.

Definition length_routine (cpp_msg : string) (names : list string) : string :=
  "inline uint32_t Serializer<" +:+ cpp_msg +:+ ">::serializedLength(const "
  +:+ cpp_msg +:+ "& m)" +:+ NL +:+ "{" +:+ NL
  +:+ "  uint32_t size = 0;" +:+ NL
  +:+ concat (length_stmt <$> names)
  +:+ "  return size;" +:+ NL +:+ "}" +:+ NL +:+ NL.

(** *** Constructor *)

(** The type families that have a default literal. *)
Inductive family : Type := IntegerIsh | Floating | Boolean | Other.

Global Instance family_eq_dec : EqDecision family.
Proof. solve_decision. Defined.

Definition KIND_FAMILY : list (string * family) :=
  [("int8", IntegerIsh); ("uint8", IntegerIsh); ("int16", IntegerIsh);
   ("uint16", IntegerIsh); ("int32", IntegerIsh); ("uint32", IntegerIsh);
   ("int64", IntegerIsh); ("uint64", IntegerIsh);
   ("byte", IntegerIsh); ("char", IntegerIsh);
   ("float32", Floating); ("float64", Floating);
   ("bool", Boolean)].

Definition family_of (base_type : string) : family :=
  default Other (RoslibModel.assoc base_type KIND_FAMILY).

Definition family_literal (f : family) : string :=
  match f with
  | IntegerIsh => "0"
  | Floating => "0.0"
  | Boolean => "false"
  | Other => ""
  end.

(** The [i]-th entry of the initializer list; the first one opens the
    list with a colon, the others continue it with a comma. *)
Definition initializer_entry (i : nat) (name lit : string) : string :=
  (if (i =? 0)%nat then "  : " else "  , ")
  +:+ "  " +:+ name +:+ "(" +:+ lit +:+ ")" +:+ NL.

Definition scalar_fields (fs : list (string * string))
    : list (string * string) :=
  filter (λ f, is_array_of f.1 = false) fs.

(** One entry per non-array field, whatever its family. *)
Definition initializer_list (fs : list (string * string)) : string :=
  concat (imap (λ i f, initializer_entry i f.2
                         (family_literal (family_of (base_type_of f.1))))
               (scalar_fields fs)).

(** Entries only for the non-array fields whose family has a literal:
    the reading under which the other fields get no initializer. *)
Definition initializer_list_literals_only (fs : list (string * string))
    : string :=
  concat (imap (λ i f, initializer_entry i f.2
                         (family_literal (family_of (base_type_of f.1))))
               (filter (λ f, family_of (base_type_of f.1) ≠ Other)
                       (scalar_fields fs))).

Definition fill_stmt (f : string * string) : string :=
  "    " +:+ f.2 +:+ ".assign("
  +:+ family_literal (family_of (base_type_of f.1)) +:+ ");" +:+ NL.

(** The fixed-length arrays whose base type has a default literal. *)
Definition filled_arrays (fs : list (string * string))
    : list (string * string) :=
  filter (λ f, is_array_of f.1 = true ∧ array_len_of f.1 ≠ None
               ∧ family_of (base_type_of f.1) ≠ Other) fs.

Definition constructor_text (msg inits : string)
    (fs : list (string * string)) : string :=
  "  " +:+ msg +:+ "()" +:+ NL +:+ inits
  +:+ "  {" +:+ NL +:+ concat (fill_stmt <$> filled_arrays fs)
  +:+ "  }" +:+ NL +:+ NL.

(** *** Includes *)

Definition fixed_includes : string :=
  "#include <string>" +:+ NL +:+ "#include <vector>" +:+ NL
  +:+ "#include " +:+ Q +:+ "ros/serialization.h" +:+ Q +:+ NL
  +:+ "#include " +:+ Q +:+ "ros/builtin_message_traits.h" +:+ Q +:+ NL
  +:+ "#include " +:+ Q +:+ "ros/message.h" +:+ Q +:+ NL
  +:+ "#include " +:+ Q +:+ "ros/time.h" +:+ Q +:+ NL +:+ NL.

(** The include of one non-builtin base type; the header type has its
    own fixed include. *)
Definition include_line (base_type : string) : string :=
  "#include " +:+ Q
  +:+ (if is_header_type base_type then "roslib/Header" else base_type)
  +:+ ".h" +:+ Q +:+ NL.

Definition includes_section (base_types : list string) : string :=
  fixed_includes +:+ concat (include_line <$> base_types) +:+ NL.

(** *** Include guard *)

Definition guard_macro (pkg msg : string) : string :=
  upper pkg +:+ "_" +:+ upper msg +:+ "_H".

Definition is_upper (c : ascii) : bool :=
  (65 <=? nat_of_ascii c)%nat && (nat_of_ascii c <=? 90)%nat.

(** Two characters that are equal or are the two cases of one letter. *)
Definition case_variant (a b : ascii) : Prop :=
  a = b
  ∨ (is_upper a = true ∧ nat_of_ascii b = (nat_of_ascii a + 32)%nat)
  ∨ (is_upper b = true ∧ nat_of_ascii a = (nat_of_ascii b + 32)%nat).

Inductive same_up_to_case : string → string → Prop :=
  | same_case_nil : same_up_to_case "" ""
  | same_case_cons a b s t :
      case_variant a b → same_up_to_case s t →
      same_up_to_case (String a s) (String b t).

(** *** Runs of the generator *)

(** A run that went through: the model did not cut it short. *)
Definition completes {A : Type} (o : outcome A) : Prop := o ≠ OutOfFuel.

End Vocabulary.

(** ** Example schemas *)

Module Examples.

Import RoslibModel.

Definition Point : MsgSpec :=
  mkMsgSpec [("float64", "x"); ("float64", "y")] [] false.

Definition Segment : MsgSpec :=
  mkMsgSpec [("geometry/Point", "a"); ("geometry/Point", "b")] [] false.

Definition Name : MsgSpec := mkMsgSpec [("string", "s")] [] false.

Definition Path : MsgSpec :=
  mkMsgSpec [("Segment", "first"); ("uint8[4]", "flags")]
            [mkConstant "int32" "MAX" "16"] false.

Definition geometry_world : World :=
  {| msg_db := [("geometry", "Point", Point);
                ("geometry", "Segment", Segment)];
     msg_files :=
       [("geometry/msg/Path.msg", ("geometry", "geometry", "Path", Path));
        ("./geometry/msg/Path.msg", ("geometry", "geometry", "Path", Path))];
     digest_of := λ _ _, ("d41d8cd9", "Segment first" +:+ NL
                                        +:+ "uint8[4] flags") |}.

Definition geometry : Roslib := roslib geometry_world.

End Examples.

(** ** The driver and the files it writes *)

Section Driver.

Context `{R : Roslib} `{P : PySet}.

(** The buffer [s] followed by what an emitter writes. *)
Definition prepend (s : string) (o : outcome string) : outcome string :=
  t ← o; Ret (s +:+ t).

(** The declaration of one member: its type alias and the member. *)
Definition member_decl (cpp_type name : string) : string :=
  "  typedef " +:+ cpp_type +:+ " _" +:+ name +:+ "_type;" +:+ NL
  +:+ "  " +:+ cpp_type +:+ " " +:+ name +:+ ";" +:+ NL +:+ NL.

(** [open(path, 'w')] followed by the [print]: the file at the unit's path
    now holds the unit's text. *)
Definition write_file (fs : gmap string string) (u : OutputUnit)
    : gmap string string :=
  <[unit_path u := unit_text u]> fs.

(** The loop of [generate_messages] over the arguments; the files written
    before an exception stay written. *)
Fixpoint generate_each (fuel : nat) (args : list string)
    (fs : gmap string string) : gmap string string * outcome () :=
  match args with
  | [] => (fs, Ret ())
  | arg :: args' =>
      match generate fuel arg with
      | Ret u => generate_each fuel args' (write_file fs u)
      | Raise e => (fs, Raise e)
      | OutOfFuel => (fs, OutOfFuel)
      end
  end.

Definition generate_messages (fuel : nat) (argv : list string)
    (fs : gmap string string) : gmap string string * outcome () :=
  generate_each fuel (drop 1 argv) fs.

(** One entry of the initializer list, after its lead. *)
Definition initializer_body (f : string * string) : string :=
  "  " +:+ f.2 +:+ "(" +:+ default_value (base_type_of f.1) +:+ ")" +:+ NL.

End Driver.

(** ** Two runs of the generator *)

(** Both runs use the same roslib code. *)
Definition same_helpers (R1 R2 : Roslib) : Prop :=
  (∀ t, parse_type (Roslib := R1) t = parse_type (Roslib := R2) t)
  ∧ (∀ t, is_builtin (Roslib := R1) t = is_builtin (Roslib := R2) t)
  ∧ (∀ t, is_header_type (Roslib := R1) t = is_header_type (Roslib := R2) t)
  ∧ (∀ t, package_resource_name (Roslib := R1) t
          = package_resource_name (Roslib := R2) t).

(** Both runs find the same schemas for the referenced types. *)
Definition same_lookup (R1 R2 : Roslib) : Prop :=
  ∀ t pkg, load_by_type (Roslib := R1) t pkg
           = load_by_type (Roslib := R2) t pkg.

(** The digest service gives both runs the same hash and definition text
    for the schema. *)
Definition same_digest (R1 R2 : Roslib) (spec : MsgSpec) (package : string)
    : Prop :=
  compute_md5 (get_dependencies (Roslib := R1) spec package)
  = compute_md5 (get_dependencies (Roslib := R2) spec package)
  ∧ compute_full_text (get_dependencies (Roslib := R1) spec package)
    = compute_full_text (get_dependencies (Roslib := R2) spec package).

(** Both runs are given the same path and read the same schema from it,
    with the same digest. *)
Definition same_input (R1 R2 : Roslib) (msg_path : string) : Prop :=
  get_dir_pkg (Roslib := R1) msg_path = get_dir_pkg (Roslib := R2) msg_path
  ∧ load_from_file (Roslib := R1) msg_path
    = load_from_file (Roslib := R2) msg_path
  ∧ ∀ name spec,
      load_from_file (Roslib := R1) msg_path = inr (name, spec) →
      same_digest R1 R2 spec (get_dir_pkg (Roslib := R1) msg_path).2.

(** ** More example schemas *)

Module Workspace.

Import RoslibModel Examples.

Definition Flags : MsgSpec :=
  mkMsgSpec [("uint8", "bits")]
            [mkConstant "uint8" "NONE" "0"; mkConstant "bool" "ON" "1";
             mkConstant "int32" "ALL" "255"] false.

(** A list node that refers to its own type. *)
Definition Node : MsgSpec :=
  mkMsgSpec [("int32", "value"); ("Node", "next")] [] false.

(** Schemas that refer to a type nobody defines. *)
Definition Dangling : MsgSpec := mkMsgSpec [("Missing", "m")] [] false.

Definition Labelled : MsgSpec :=
  mkMsgSpec [("Missing", "m"); ("string", "label")] [] false.

Definition Samples : MsgSpec :=
  mkMsgSpec [("uint8[4]", "flags"); ("int32[]", "values")] [] false.

Definition Wide : MsgSpec :=
  mkMsgSpec [("int32", "id"); ("wstring", "text"); ("Missing", "m")] [] false.

Definition workspace_world : World :=
  {| msg_db := [("geometry", "Point", Point);
                ("geometry", "Segment", Segment);
                ("graph", "Node", Node)];
     msg_files :=
       [("geometry/msg/Path.msg", ("geometry", "geometry", "Path", Path));
        ("geometry/msg/Point.msg", ("geometry", "geometry", "Point", Point));
        ("geometry/msg/Flags.msg", ("geometry", "geometry", "Flags", Flags));
        ("graph/msg/Node.msg", ("graph", "graph", "Node", Node))];
     digest_of := λ _ _, ("d41d8cd9", "int32 x" +:+ NL +:+ "int32 y") |}.

Definition workspace : Roslib := roslib workspace_world.

(** The geometry package seen from another checkout: the same message
    files and digests, and one more schema file. *)
Definition checkout_world : World :=
  {| msg_db := msg_db geometry_world;
     msg_files :=
       ("geometry/msg/Point.msg", ("geometry", "geometry", "Point", Point))
       :: msg_files geometry_world;
     digest_of := digest_of geometry_world |}.

Definition checkout : Roslib := roslib checkout_world.

(** The geometry package with a [Segment] that holds any number of
    points, while the digest service still answers as before. *)
Definition Polyline : MsgSpec :=
  mkMsgSpec [("geometry/Point[]", "points")] [] false.

Definition stale_world : World :=
  {| msg_db := [("geometry", "Point", Point);
                ("geometry", "Segment", Polyline)];
     msg_files := msg_files geometry_world;
     digest_of := digest_of geometry_world |}.

Definition stale : Roslib := roslib stale_world.

(** Two fields of one composite base type, the second a variable-length
    array. *)
Definition Track : MsgSpec :=
  mkMsgSpec [("geometry/Point", "start"); ("geometry/Point[]", "points")]
            [] false.

Definition TrackStart : MsgSpec :=
  mkMsgSpec [("geometry/Point", "start")] [] false.

(** Two fields of one composite base type, the second a fixed-length
    array. *)
Definition Triangle : MsgSpec :=
  mkMsgSpec [("geometry/Point", "apex"); ("uint8", "color");
             ("geometry/Point[2]", "base")] [] false.

(** A roslib whose builtin kinds have outgrown the type table of the
    script. *)
Definition newer_roslib : Roslib :=
  Build_Roslib parse_type
    (λ t, is_builtin t || bool_decide (t = "wstring"))
    is_header_type package_resource_name
    (load_by_type workspace_world) (string * string)
    (digest_of workspace_world) fst snd
    (get_dir_pkg workspace_world) (load_from_file workspace_world).

End Workspace.

(** * Properties *)

(** ** Strings and buffers *)

Lemma append_cons (c : ascii) (s t : string) :
  String c s +:+ t = String c (s +:+ t).
Proof. reflexivity. Qed.

Lemma append_nil_l (s : string) : "" +:+ s = s.
Proof. reflexivity. Qed.

Lemma append_nil_r (s : string) : s +:+ "" = s.
Proof. induction s as [|c s IH]; [done|]. by rewrite append_cons, IH. Qed.

Lemma append_assoc (s t u : string) : (s +:+ t) +:+ u = s +:+ t +:+ u.
Proof. induction s as [|c s IH]; [done|]. by rewrite !append_cons, IH. Qed.

Lemma concat_append (l1 l2 : list string) :
  concat (l1 ++ l2) = concat l1 +:+ concat l2.
Proof.
  induction l1 as [|x l1 IH]; [done|].
  cbn [concat app]. by rewrite IH, append_assoc.
Qed.

(** A loop that only writes appends one piece of text per element. *)
Lemma foldl_write {A : Type} (text : A → string) (l : list A) (s : StringIO) :
  foldl (λ s x, write s (text x)) s l = s +:+ concat (text <$> l).
Proof.
  revert s. induction l as [|x l IH]; intros s; cbn.
  - by rewrite append_nil_r.
  - rewrite IH. unfold write. by rewrite append_assoc.
Qed.

(** The same for a loop over the fields that only uses their names. *)
Lemma foldl_write_names (text : string → string) (fs : list (string * string))
    (s : StringIO) :
  foldl (λ (s : StringIO) '(type, name), write s (text name)) s fs
  = s +:+ concat (text <$> fs.*2).
Proof.
  revert s. induction fs as [|[type name] fs IH]; intros s; cbn.
  - by rewrite append_nil_r.
  - rewrite IH. unfold write. by rewrite append_assoc.
Qed.

Lemma replace_app (old : ascii) (new s t : string) :
  replace old new (s +:+ t) = replace old new s +:+ replace old new t.
Proof.
  induction s as [|c s IH]; [done|].
  rewrite append_cons. cbn. destruct (decide (c = old)).
  - by rewrite IH, append_assoc.
  - by rewrite IH, append_cons.
Qed.

Lemma split_nonempty (sep : ascii) (s : string) : split sep s ≠ [].
Proof.
  induction s as [|c s IH]; [done|].
  cbn. destruct (decide (c = sep)); [done|].
  by destruct (split sep s).
Qed.

Lemma split_no_sep (sep : ascii) (s : string) :
  contains sep s = false → split sep s = [s].
Proof.
  induction s as [|c s IH]; [done|].
  cbn. intros [Hc Hs]%orb_false_elim.
  apply bool_decide_eq_false in Hc.
  destruct (decide (c = sep)); [done|]. by rewrite IH.
Qed.

Lemma split_app_sep (sep : ascii) (s t : string) :
  contains sep s = false →
  split sep (s +:+ String sep t) = s :: split sep t.
Proof.
  induction s as [|c s IH].
  - intros _. rewrite append_nil_l. cbn. by destruct (decide (sep = sep)).
  - cbn. intros [Hc Hs]%orb_false_elim.
    apply bool_decide_eq_false in Hc.
    rewrite append_cons. cbn.
    destruct (decide (c = sep)); [done|]. by rewrite IH.
Qed.

Lemma replace_absent (old : ascii) (new s : string) :
  contains old s = false → replace old new s = s.
Proof.
  induction s as [|c s IH]; [done|].
  cbn. intros [Hc Hs]%orb_false_elim.
  apply bool_decide_eq_false in Hc.
  destruct (decide (c = old)); [done|]. by rewrite IH.
Qed.

Lemma contains_split (c sep : ascii) (s : string) :
  contains c s = false → Forall (λ w, contains c w = false) (split sep s).
Proof.
  induction s as [|a s IH]; cbn.
  - by repeat constructor.
  - intros [Ha Hs]%orb_false_elim. specialize (IH Hs).
    destruct (decide (a = sep)).
    + by constructor.
    + destruct (split sep s) as [|w ws].
      { constructor; [|constructor]. cbn. by rewrite Ha. }
      inversion_clear IH. constructor; [|done].
      cbn. by rewrite Ha.
Qed.

Section Properties.

Context `{R : Roslib} `{P : PySet}.

(** ** The escaped definition text *)

(** Every line of the definition becomes one fragment; the line itself
    is copied as it is. *)
Lemma compute_full_text_escaped_fragments (d : gendeps_dict) :
  compute_full_text_escaped d
  = concat (fragment <$> split newline (compute_full_text d)).
Proof.
  unfold compute_full_text_escaped, getvalue.
  by rewrite (foldl_write fragment).
Qed.

(** On a definition without backslashes and double quotes there is
    nothing to escape, and the text is the one the docstring asks for. *)
Lemma compute_full_text_escaped_plain (d : gendeps_dict) :
  contains backslash (compute_full_text d) = false →
  contains dquote (compute_full_text d) = false →
  compute_full_text_escaped d = full_text_escaped_spec (compute_full_text d).
Proof.
  intros Hb Hq.
  rewrite compute_full_text_escaped_fragments. unfold full_text_escaped_spec.
  f_equal. apply Forall_fmap_ext, Forall_forall. intros line Hline.
  pose proof (contains_split backslash newline _ Hb) as Hb'.
  pose proof (contains_split dquote newline _ Hq) as Hq'.
  rewrite Forall_forall in Hb', Hq'.
  unfold escape_line.
  by rewrite (replace_absent backslash), (replace_absent dquote) by auto.
Qed.

(** The text the docstring asks for is safe inside a double-quoted
    literal, whatever the line. *)
Lemma escape_line_safe (line : string) :
  literal_safe false (escape_line line +:+ BS +:+ "n") = true.
Proof.
  unfold escape_line.
  induction line as [|c line IH]; [done|].
  cbn [replace]. destruct (decide (c = backslash)) as [->|Hb].
  - rewrite replace_app, append_assoc. exact IH.
  - cbn [replace]. destruct (decide (c = dquote)) as [->|Hq].
    + rewrite append_assoc. exact IH.
    + rewrite append_cons. cbn [literal_safe].
      by rewrite !bool_decide_eq_false_2.
Qed.

(** ** Serialization bodies *)

(** C4: the write, read and serializedLength bodies hold one statement
    per field, in the declared field order: the three statement lists are
    the images of the list of field names, so no field is skipped,
    repeated or moved.  write and read assign each result back to
    [buffer] and return it; serializedLength starts [size] at zero, adds
    every field's length and returns it. *)
Theorem write_serialization_bodies_field_order
    (s : StringIO) (spec : MsgSpec) (pkg msg : string) :
  getvalue (write_serialization_bodies s spec pkg msg)
  = s +:+ "namespace ros" +:+ NL +:+ "{" +:+ NL
      +:+ "namespace serialization" +:+ NL +:+ "{" +:+ NL +:+ NL
      +:+ write_routine (pkg +:+ "::" +:+ msg) (fields spec).*2
      +:+ read_routine (pkg +:+ "::" +:+ msg) (fields spec).*2
      +:+ length_routine (pkg +:+ "::" +:+ msg) (fields spec).*2
      +:+ "} // namespace serialization" +:+ NL
      +:+ "} // namespace ros" +:+ NL +:+ NL
  ∧ ∀ (stmt : string → string) (i : nat),
      (stmt <$> (fields spec).*2) !! i = (stmt ∘ snd) <$> fields spec !! i.
Proof.
  split.
  - unfold write_serialization_bodies, getvalue.
    rewrite (foldl_write_names (λ name, length_stmt name)).
    rewrite (foldl_write_names (λ name, deserialize_stmt name)).
    rewrite (foldl_write_names (λ name, serialize_stmt name)).
    unfold write, write_routine, read_routine, length_routine.
    by rewrite !append_assoc.
  - intros stmt i. rewrite !list_lookup_fmap.
    by destruct (fields spec !! i).
Qed.

(** ** Constants *)

Lemma numeric_kind_mapped (t : string) :
  t ∈ numeric_kinds → is_Some (MSG_TYPE_TO_CPP !! t).
Proof.
  unfold numeric_kinds. intros Hin.
  repeat (apply elem_of_cons in Hin as [->|Hin]);
    [vm_compute; by eexists..|].
  by apply elem_of_nil in Hin.
Qed.

Lemma numeric_kind_no_slash (t : string) :
  t ∈ numeric_kinds → split slash t = [t].
Proof.
  unfold numeric_kinds. intros Hin.
  repeat (apply elem_of_cons in Hin as [->|Hin]); [by vm_compute..|].
  by apply elem_of_nil in Hin.
Qed.

(** C2, as the code has it: a constant is rejected exactly when its type
    is not one of the twelve numeric kinds, bool not being among them;
    a constant of a numeric kind becomes a [static const] binding of the
    mapped type to the literal value.  The assumption says that the type
    parser leaves the numeric kind names, which carry no array suffix,
    as they are. *)
Theorem write_constant_numeric_only (s : StringIO) (c : Constant) :
  (∀ t, t ∈ numeric_kinds → parse_type t = (t, false, None)) →
  ((∃ e, write_constant s c = Raise e) ↔ const_type c ∉ numeric_kinds)
  ∧ (const_type c ∉ numeric_kinds →
       write_constant s c
       = Raise (ValueError (const_type c +:+ " not supported as a constant")))
  ∧ (const_type c ∈ numeric_kinds →
       ∃ cpp_type,
         msg_type_to_cpp (const_type c) = Ret cpp_type
         ∧ write_constant s c
           = Ret (s +:+ constant_binding cpp_type (const_name c)
                                         (const_val c))).
Proof.
  intros Hparse.
  assert (const_type c ∉ numeric_kinds →
          write_constant s c
          = Raise (ValueError (const_type c +:+ " not supported as a constant")))
    as Hout.
  { intros Hnot. unfold write_constant.
    by rewrite bool_decide_eq_false_2. }
  assert (const_type c ∈ numeric_kinds →
          ∃ cpp_type,
            msg_type_to_cpp (const_type c) = Ret cpp_type
            ∧ write_constant s c
              = Ret (s +:+ constant_binding cpp_type (const_name c)
                                            (const_val c)))
    as Hin.
  { intros Hin. unfold write_constant.
    rewrite bool_decide_eq_true_2 by done. cbn [negb].
    assert (∃ cpp_type, msg_type_to_cpp (const_type c) = Ret cpp_type)
      as [cpp_type Hcpp].
    { unfold msg_type_to_cpp. rewrite (Hparse _ Hin).
      destruct (is_builtin (const_type c)).
      - destruct (numeric_kind_mapped _ Hin) as [t ->]. by eexists.
      - rewrite (numeric_kind_no_slash _ Hin).
        destruct (is_header_type (const_type c)); by eexists. }
    exists cpp_type. by rewrite Hcpp. }
  split_and!; [|done..].
  split.
  - intros [e He] Hmem. destruct (Hin Hmem) as (cpp & _ & Hret).
    by rewrite Hret in He.
  - intros Hnot. eexists. by apply Hout.
Qed.

(** ** The type mapper *)

(** C8, as the code has it: a composite type is always mapped; a
    qualified name [pkg/msg] becomes [pkg::msg], a bare name becomes the
    fixed header type if it denotes the header and stays as it is
    otherwise; a variable array wraps the base expression in
    [std::vector], a fixed array of length [n] in [boost::array] with
    [n], and a scalar leaves it as it is. *)
Theorem msg_type_to_cpp_composite
    (type base_type : string) (is_array : bool) (array_len : option Z) :
  parse_type type = (base_type, is_array, array_len) →
  is_builtin base_type = false →
  ∃ cpp_type,
    (contains slash base_type = false →
       cpp_type = if is_header_type base_type then "roslib::Header"
                  else base_type)
    ∧ (∀ pkg msg, base_type = pkg +:+ "/" +:+ msg →
         contains slash pkg = false → contains slash msg = false →
         cpp_type = pkg +:+ "::" +:+ msg)
    ∧ msg_type_to_cpp type
      = Ret (match is_array, array_len with
             | false, _ => cpp_type
             | true, None => "std::vector<" +:+ cpp_type +:+ ">"
             | true, Some n =>
                 "boost::array<" +:+ cpp_type +:+ ", " +:+ pretty n +:+ ">"
             end).
Proof.
  intros Hparse Hbuiltin.
  unfold msg_type_to_cpp. rewrite Hparse, Hbuiltin.
  destruct (split slash base_type) as [|p [|m rest]] eqn:Hsplit.
  - by destruct (split_nonempty slash base_type).
  - exists (if is_header_type base_type then "roslib::Header" else base_type).
    split_and!.
    + done.
    + intros pkg msg -> Hpkg Hmsg.
      change (pkg +:+ "/" +:+ msg) with (pkg +:+ String slash msg) in Hsplit.
      by rewrite split_app_sep, (split_no_sep _ msg) in Hsplit.
    + destruct (is_header_type base_type), is_array, array_len; done.
  - exists (p +:+ "::" +:+ m). split_and!.
    + intros Hbare. by rewrite split_no_sep in Hsplit.
    + intros pkg msg -> Hpkg Hmsg.
      change (pkg +:+ "/" +:+ msg) with (pkg +:+ String slash msg) in Hsplit.
      rewrite split_app_sep, (split_no_sep _ msg) in Hsplit by done.
      by simplify_eq.
    + destruct is_array, array_len; done.
Qed.

(** ** Includes *)

Lemma parse_type_eta (type : string) :
  parse_type type = (base_type_of type, is_array_of type, array_len_of type).
Proof.
  unfold base_type_of, is_array_of, array_len_of.
  by destruct (parse_type type) as [[??]?].
Qed.

Lemma composite_types_cons (type name : string) (fs : list (string * string)) :
  composite_types ((type, name) :: fs)
  = if is_builtin (base_type_of type) then composite_types fs
    else base_type_of type :: composite_types fs.
Proof.
  unfold composite_types. rewrite !fmap_cons, filter_cons. cbn [fst].
  destruct (is_builtin (base_type_of type)); by case_decide.
Qed.

(** C7, as the code has it: after the six fixed includes, the section
    holds one include per field whose base type is not builtin, in field
    order, so a type that several fields use is included once for each
    of them; the header type always gets its own fixed include. *)
Theorem write_includes_one_per_field (s : StringIO) (spec : MsgSpec) :
  getvalue (write_includes s spec)
  = s +:+ includes_section (composite_types (fields spec))
  ∧ length (composite_types (fields spec))
    = length (filter (λ f, is_builtin (base_type_of f.1) = false)
                     (fields spec))
  ∧ ∀ base_type, is_header_type base_type = true →
      include_line base_type
      = "#include " +:+ Q +:+ "roslib/Header.h" +:+ Q +:+ NL.
Proof.
  split_and!.
  - unfold write_includes, getvalue, includes_section.
    match goal with
    | |- write (foldl ?f ?s0 _) _ = _ =>
        assert (∀ fs s1, foldl f s1 fs
                = s1 +:+ concat (include_line <$> composite_types fs)) as ->
    end.
    { induction fs as [|[type name] fs IH]; intros s1.
      - cbn. by rewrite append_nil_r.
      - cbn [foldl]. rewrite IH, composite_types_cons, (parse_type_eta type).
        destruct (is_builtin (base_type_of type)); cbn [negb]; [done|].
        cbn [fmap list_fmap concat]. unfold include_line at 2.
        destruct (is_header_type (base_type_of type));
          unfold write; by rewrite !append_assoc. }
    unfold write, fixed_includes. by rewrite !append_assoc.
  - generalize (fields spec) as fs.
    induction fs as [|[type name] fs IH]; [done|].
    rewrite composite_types_cons, filter_cons. cbn [fst].
    destruct (is_builtin (base_type_of type));
      [rewrite decide_False by done|rewrite decide_True by done];
      cbn [length]; by rewrite IH.
  - intros base_type Hheader. unfold include_line. by rewrite Hheader.
Qed.

(** ** Constructor *)

Lemma default_value_family (type : string) :
  default_value type = family_literal (family_of type).
Proof.
  unfold default_value.
  case_bool_decide as H1.
  { repeat (apply elem_of_cons in H1 as [->|H1]); [done..|].
    by apply elem_of_nil in H1. }
  case_bool_decide as H2.
  { repeat (apply elem_of_cons in H2 as [->|H2]); [done..|].
    by apply elem_of_nil in H2. }
  case_bool_decide as H3; [by subst|].
  unfold family_of, KIND_FAMILY. cbn [RoslibModel.assoc].
  repeat (case_decide;
          [exfalso; subst;
           first [ by apply H3
                 | apply H1; by repeat first [left | right]
                 | apply H2; by repeat first [left | right] ] |]).
  done.
Qed.

Lemma family_literal_empty (f : family) :
  (0 <? String.length (family_literal f))%nat = bool_decide (f ≠ Other).
Proof. by destruct f. Qed.

Lemma write_initializers_entries (fs : list (string * string))
    (s : StringIO) (i : nat) :
  write_initializers s i fs
  = s +:+ concat (imap (λ k f, initializer_entry (i + k) f.2
                                 (family_literal (family_of (base_type_of f.1))))
                       (scalar_fields fs)).
Proof.
  revert s i. induction fs as [|[type name] fs IH]; intros s i.
  - cbn. by rewrite append_nil_r.
  - cbn [write_initializers]. rewrite (parse_type_eta type).
    unfold scalar_fields. rewrite filter_cons. cbn [fst].
    destruct (is_array_of type) eqn:Harr.
    + rewrite decide_False by done. apply IH.
    + rewrite decide_True by done. rewrite IH.
      cbn [imap concat]. unfold initializer_entry at 2.
      rewrite Nat.add_0_r, default_value_family. cbn [snd fst].
      unfold write.
      fold (scalar_fields fs).
      rewrite (imap_ext (_ ∘ S) (λ k f, initializer_entry (i + 1 + k) f.2
                 (family_literal (family_of (base_type_of f.1)))));
        [|intros k f _; cbn; by rewrite <-Nat.add_assoc].
      by destruct (i =? 0)%nat; rewrite !append_assoc.
Qed.

Lemma write_fills (fs : list (string * string)) (s : StringIO) :
  foldl (λ (s : StringIO) '(type, name),
           let '(base_type, is_array, array_len) := parse_type type in
           if negb is_array || bool_decide (array_len = None) then s
           else
             let val := default_value base_type in
             if (0 <? String.length val)%nat then
               write s ("    " +:+ name +:+ ".assign(" +:+ val +:+ ");" +:+ NL)
             else s)
        s fs
  = s +:+ concat (fill_stmt <$> filled_arrays fs).
Proof.
  revert s. induction fs as [|[type name] fs IH]; intros s.
  - cbn. by rewrite append_nil_r.
  - cbn [foldl]. rewrite IH, (parse_type_eta type).
    unfold filled_arrays. rewrite filter_cons. cbn [fst].
    rewrite default_value_family, family_literal_empty.
    destruct (is_array_of type); cbn [negb orb].
    + case_bool_decide as Hlen.
      { by rewrite decide_False by (by intros (_ & ? & _)). }
      case_bool_decide as Hfam.
      * rewrite decide_True by done.
        cbn [fmap list_fmap concat]. unfold fill_stmt at 2, write.
        cbn [fst snd]. by rewrite !append_assoc.
      * by rewrite decide_False by (by intros (_ & _ & ?)).
    + by rewrite decide_False by (by intros (? & _)).
Qed.

(** C6, as the code has it: the initializer list holds one entry for
    every non-array field, in field order; the entry is [name(lit)]
    where [lit] is [0] for the integer kinds, [0.0] for the floating
    kinds and [false] for bool, and for a field of any other type the
    entry is still written, with nothing between the parentheses. *)
Theorem write_constructor_initializers
    (s : StringIO) (msg : string) (spec : MsgSpec) :
  getvalue (write_constructor s msg spec)
  = s +:+ constructor_text msg (initializer_list (fields spec)) (fields spec)
  ∧ (∀ base_type, default_value base_type
                  = family_literal (family_of base_type))
  ∧ (∀ i name, initializer_entry i name (family_literal Other)
               = (if (i =? 0)%nat then "  : " else "  , ")
                 +:+ "  " +:+ name +:+ "()" +:+ NL).
Proof.
  split_and!.
  - unfold write_constructor, getvalue, constructor_text, initializer_list.
    rewrite write_fills, write_initializers_entries.
    unfold write. by rewrite !append_assoc.
  - apply default_value_family.
  - intros i name. unfold initializer_entry.
    by destruct (i =? 0)%nat.
Qed.

(** ** Include guard *)

Lemma case_variant_upper (a b : ascii) :
  case_variant a b → upper_ascii a = upper_ascii b.
Proof.
  assert (∀ x y, is_upper x = true →
                 nat_of_ascii y = (nat_of_ascii x + 32)%nat →
                 upper_ascii x = upper_ascii y) as Hcase.
  { intros x y Hx Hy. unfold upper_ascii, is_lower, is_upper in *.
    apply andb_true_iff in Hx as [Hx1%Nat.leb_le Hx2%Nat.leb_le].
    rewrite Hy.
    replace (nat_of_ascii x + 32 <=? 122)%nat with true
      by (symmetry; apply Nat.leb_le; lia).
    replace (97 <=? nat_of_ascii x + 32)%nat with true
      by (symmetry; apply Nat.leb_le; lia).
    replace (97 <=? nat_of_ascii x)%nat with false
      by (symmetry; apply Nat.leb_gt; lia).
    cbn [andb].
    replace (nat_of_ascii x + 32 - 32)%nat with (nat_of_ascii x) by lia.
    by rewrite ascii_nat_embedding. }
  intros [->|[[Ha Hb]|[Hb Ha]]]; [done|by apply Hcase|].
  symmetry. by apply Hcase.
Qed.

Lemma same_up_to_case_upper (s t : string) :
  same_up_to_case s t → upper s = upper t.
Proof.
  induction 1 as [|a b s t Hab _ IH]; [done|].
  cbn. by rewrite IH, (case_variant_upper a b).
Qed.

(** C10: the guard that [write_begin] opens and [write_end] closes is the
    uppercased [PACKAGE_NAME_H], so two schemas whose package and name
    differ only in letter case get the same guard macro. *)
Theorem guard_macro_ignores_case
    (s : StringIO) (pkg msg file pkg' msg' : string) :
  same_up_to_case pkg pkg' → same_up_to_case msg msg' →
  write_begin s pkg msg file
  = s +:+ "/* Auto-generated by genmsg_cpp for file " +:+ file +:+ " */"
      +:+ NL
      +:+ "#ifndef " +:+ guard_macro pkg msg +:+ NL
      +:+ "#define " +:+ guard_macro pkg msg +:+ NL
  ∧ write_end s pkg msg = s +:+ "#endif // " +:+ guard_macro pkg msg +:+ NL
  ∧ guard_macro pkg msg = guard_macro pkg' msg'.
Proof.
  intros Hpkg Hmsg. split_and!.
  - unfold write_begin, write, guard_macro. by rewrite !append_assoc.
  - unfold write_end, write, guard_macro. by rewrite !append_assoc.
  - unfold guard_macro.
    by rewrite (same_up_to_case_upper _ _ Hpkg),
               (same_up_to_case_upper _ _ Hmsg).
Qed.

(** ** Fixed-length analysis *)

Lemma collect_types_None (fs : list (string * string)) (acc : list string) :
  collect_types fs acc = None
  ↔ ∃ type, type ∈ fs.*1 ∧ variable_length_type type = true.
Proof.
  revert acc. induction fs as [|[type name] fs IH]; intros acc.
  - cbn. split; [done|]. intros (t & Ht & _). by apply elem_of_nil in Ht.
  - cbn [collect_types]. rewrite (parse_type_eta type), fmap_cons. cbn [fst].
    destruct (variable_length_type type) eqn:Hv.
    + split; [intros _; exists type; split; [left|done]|intros _].
      unfold variable_length_type in Hv.
      destruct (is_array_of type && bool_decide (array_len_of type = None));
        [done|].
      cbn in Hv. by rewrite Hv.
    + pose proof Hv as Hv'. unfold variable_length_type in Hv'.
      apply orb_false_elim in Hv' as [-> ->].
      assert ((∃ t, t ∈ type :: fs.*1 ∧ variable_length_type t = true)
              ↔ ∃ t, t ∈ fs.*1 ∧ variable_length_type t = true) as ->.
      { split; intros (t & Ht & Hvt); exists t; (split; [|done]).
        - apply elem_of_cons in Ht as [->|Ht]; [congruence|done].
        - by right. }
      destruct (negb (is_builtin (base_type_of type))); apply IH.
Qed.

Lemma collect_types_Some (fs : list (string * string))
    (acc types : list string) :
  collect_types fs acc = Some types → types = acc ++ composite_types fs.
Proof.
  revert acc. induction fs as [|[type name] fs IH]; intros acc.
  - cbn. intros [= <-]. by rewrite (right_id_L [] (++)).
  - cbn [collect_types]. rewrite (parse_type_eta type), composite_types_cons.
    destruct (is_array_of type && bool_decide (array_len_of type = None));
      [done|].
    destruct (bool_decide (base_type_of type = "string")); [done|].
    destruct (is_builtin (base_type_of type)); cbn [negb]; intros Hc.
    + by apply IH.
    + apply IH in Hc. by rewrite <-(assoc_L (++)) in Hc.
Qed.

Lemma elem_of_composite_types (fs : list (string * string)) (b : string) :
  b ∈ composite_types fs
  ↔ ∃ type, type ∈ fs.*1 ∧ base_type_of type = b ∧ is_builtin b = false.
Proof.
  unfold composite_types.
  rewrite list_elem_of_filter, list_elem_of_fmap. split.
  - intros [Hb (type & -> & Ht)]. by exists type.
  - intros (type & Ht & <- & Hb). split; [done|]. by exists type.
Qed.

Lemma elem_of_add_all (table l : list string) (x : string) :
  x ∈ add_all table l ↔ x ∈ table ∨ x ∈ l.
Proof.
  revert table. induction l as [|y l IH]; intros table; cbn [add_all].
  - rewrite elem_of_nil. tauto.
  - rewrite IH, elem_of_cons. destruct (decide (y ∈ table)) as [Hy|Hy].
    + split; [tauto|]. intros [?|[->|?]]; tauto.
    + rewrite elem_of_app, list_elem_of_singleton. tauto.
Qed.

Lemma NoDup_add_all (table l : list string) :
  NoDup table → NoDup (add_all table l).
Proof.
  revert table. induction l as [|y l IH]; intros table Hnd; [done|].
  cbn [add_all]. apply IH. destruct (decide (y ∈ table)) as [Hy|Hy]; [done|].
  apply NoDup_app. split_and!; [done| |apply NoDup_singleton].
  intros x Hx Hx'. apply list_elem_of_singleton in Hx' as ->. done.
Qed.

Lemma add_all_app (table l1 l2 : list string) :
  add_all table (l1 ++ l2) = add_all (add_all table l1) l2.
Proof.
  revert table. induction l1 as [|y l1 IH]; intros table; [done|].
  cbn [add_all app]. apply IH.
Qed.

(** An element that is already in the set when it comes again leaves no
    trace. *)
Lemma distinct_drop_later (l1 l2 : list string) (x : string) :
  x ∈ l1 → distinct (l1 ++ x :: l2) = distinct (l1 ++ l2).
Proof.
  intros Hx. unfold distinct. rewrite !add_all_app. cbn [add_all].
  rewrite decide_True; [done|]. apply elem_of_add_all. by right.
Qed.

Lemma distinct_drop_repeat (l0 l1 l2 : list string) (x : string) :
  distinct (l0 ++ x :: l1 ++ x :: l2) = distinct (l0 ++ x :: l1 ++ l2).
Proof.
  replace (l0 ++ x :: l1 ++ x :: l2) with ((l0 ++ x :: l1) ++ x :: l2)
    by (by rewrite <-(assoc_L (++))).
  replace (l0 ++ x :: l1 ++ l2) with ((l0 ++ x :: l1) ++ l2)
    by (by rewrite <-(assoc_L (++))).
  apply distinct_drop_later. rewrite elem_of_app, elem_of_cons. tauto.
Qed.

Lemma NoDup_distinct (l : list string) : NoDup (distinct l).
Proof. apply NoDup_add_all, NoDup_nil_2. Qed.

Lemma elem_of_distinct (l : list string) (x : string) :
  x ∈ distinct l ↔ x ∈ l.
Proof.
  unfold distinct. rewrite elem_of_add_all, elem_of_nil. tauto.
Qed.

Lemma elem_of_set_of_types (types : list string) (t : string) :
  t ∈ set_of_types types ↔ t ∈ types.
Proof.
  unfold set_of_types.
  by rewrite (hash_order_perm _ (NoDup_distinct types)), elem_of_distinct.
Qed.

Lemma NoDup_set_of_types (types : list string) : NoDup (set_of_types types).
Proof.
  unfold set_of_types.
  rewrite (hash_order_perm _ (NoDup_distinct types)). apply NoDup_distinct.
Qed.

Lemma set_of_types_nil : set_of_types [] = [].
Proof.
  unfold set_of_types. apply Permutation_nil_r.
  apply (hash_order_perm []), NoDup_nil_2.
Qed.

Lemma composite_types_app (fs1 fs2 : list (string * string)) :
  composite_types (fs1 ++ fs2) = composite_types fs1 ++ composite_types fs2.
Proof. unfold composite_types. by rewrite !fmap_app, filter_app. Qed.

(** *** The recursion *)

Lemma lookup_package_eq (type package : string) :
  (let '(pkg, name) := package_resource_name type in
   if bool_decide (pkg = "") then package else pkg)
  = lookup_package type package.
Proof.
  unfold lookup_package. by destruct (package_resource_name type).
Qed.

(** One step of the second loop, with the package written as in the
    specification. *)
Lemma check_types_cons (rec : MsgSpec → string → outcome bool)
    (package type : string) (types : list string) :
  check_types rec package (type :: types)
  = match load_by_type type (lookup_package type package) with
    | inl e => Raise e
    | inr r =>
        match rec r.2 (lookup_package type package) with
        | Ret b => if negb b then Ret false
                   else check_types rec package types
        | Raise e => Raise e
        | OutOfFuel => OutOfFuel
        end
    end.
Proof.
  cbn [check_types]. unfold lookup_package.
  destruct (package_resource_name type) as [pkg name]. cbn [fst].
  by destruct (load_by_type _ _) as [e|[n new_spec]].
Qed.

(** *** Lookups are made once *)

Lemma check_types_log_cons (rec : MsgSpec → string → outcome bool)
    (package type : string) (types : list string) :
  check_types_log rec package (type :: types)
  = match load_by_type type (lookup_package type package) with
    | inl e => ([(type, lookup_package type package)], Raise e)
    | inr r =>
        match rec r.2 (lookup_package type package) with
        | Ret b =>
            if negb b then ([(type, lookup_package type package)], Ret false)
            else ((type, lookup_package type package)
                    :: (check_types_log rec package types).1,
                  (check_types_log rec package types).2)
        | Raise e => ([(type, lookup_package type package)], Raise e)
        | OutOfFuel => ([(type, lookup_package type package)], OutOfFuel)
        end
    end.
Proof.
  cbn [check_types_log]. unfold lookup_package.
  destruct (package_resource_name type) as [pkg name]. cbn [fst].
  destruct (load_by_type _ _) as [e|[n new_spec]]; [done|]. cbn [snd].
  destruct (rec new_spec _) as [b|e|]; [|done..].
  destruct (negb b); [done|]. by destruct (check_types_log rec package types).
Qed.

(** The logging loop returns what the loop returns. *)
Lemma check_types_log_result (rec : MsgSpec → string → outcome bool)
    (package : string) (types : list string) :
  (check_types_log rec package types).2 = check_types rec package types.
Proof.
  induction types as [|type types IH]; [done|].
  rewrite check_types_log_cons, check_types_cons.
  destruct (load_by_type _ _) as [e|r]; [done|].
  destruct (rec r.2 _) as [b|e|]; [|done..].
  by destruct (negb b).
Qed.

(** The lookups are made for the types of the list, from its head on, each
    in the package the type names or else the owning one. *)
Lemma check_types_log_walk (rec : MsgSpec → string → outcome bool)
    (package : string) (types : list string) :
  ∃ k, (check_types_log rec package types).1
       = (λ t, (t, lookup_package t package)) <$> take k types.
Proof.
  induction types as [|type types [k IH]]; [by exists 0%nat|].
  rewrite check_types_log_cons.
  destruct (load_by_type _ _) as [e|r]; [by exists 1%nat|].
  destruct (rec r.2 _) as [b|e|]; [|by exists 1%nat..].
  destruct (negb b); [by exists 1%nat|].
  exists (S k). cbn [fst take fmap list_fmap]. by rewrite IH.
Qed.

(** When the loop returns True it has looked up every type of the list. *)
Lemma check_types_log_all (rec : MsgSpec → string → outcome bool)
    (package : string) (types : list string) :
  (check_types_log rec package types).2 = Ret true →
  (check_types_log rec package types).1
  = (λ t, (t, lookup_package t package)) <$> types.
Proof.
  induction types as [|type types IH]; [done|].
  rewrite check_types_log_cons.
  destruct (load_by_type _ _) as [e|r]; [done|].
  destruct (rec r.2 _) as [[]|e|]; [|done..].
  cbn [negb fst snd fmap list_fmap]. intros Hrest. by rewrite IH.
Qed.

Lemma is_fixed_length_log_result (fuel : nat) (spec : MsgSpec)
    (package : string) :
  (is_fixed_length_log fuel spec package).2
  = is_fixed_length fuel spec package.
Proof.
  destruct fuel as [|fuel]; [done|]. cbn [is_fixed_length_log is_fixed_length].
  destruct (collect_types (fields spec) []); [|done].
  apply check_types_log_result.
Qed.

Lemma is_fixed_length_log_walk (fuel : nat) (spec : MsgSpec)
    (package : string) :
  ∃ k, (is_fixed_length_log fuel spec package).1
       = (λ t, (t, lookup_package t package))
           <$> take k (set_of_types (composite_types (fields spec))).
Proof.
  destruct fuel as [|fuel]; [by exists 0%nat|]. cbn [is_fixed_length_log].
  destruct (collect_types (fields spec) []) as [types|] eqn:Hc;
    [|by exists 0%nat].
  apply collect_types_Some in Hc. cbn in Hc. subst types.
  apply check_types_log_walk.
Qed.

(** A later field that repeats the base type of an earlier one, and is not
    a variable-length array, changes neither the early exit nor the set
    of types to look up. *)
Lemma collect_types_drop_later
    (pre mid post : list (string * string)) (type name type' name' : string) :
  base_type_of type' = base_type_of type →
  ¬ (is_array_of type' = true ∧ array_len_of type' = None) →
  (collect_types (pre ++ (type, name) :: mid ++ (type', name') :: post) []
   = None
   ↔ collect_types (pre ++ (type, name) :: mid ++ post) [] = None)
  ∧ set_of_types
      (composite_types (pre ++ (type, name) :: mid ++ (type', name') :: post))
    = set_of_types (composite_types (pre ++ (type, name) :: mid ++ post)).
Proof.
  intros Hbase Hfixed. split.
  - rewrite !collect_types_None.
    assert (variable_length_type type' = true →
            variable_length_type type = true) as Hvar.
    { unfold variable_length_type. intros [Harr|Hstr]%orb_true_iff.
      - apply andb_true_iff in Harr as [Harr Hlen%bool_decide_eq_true].
        by destruct Hfixed.
      - rewrite <-Hbase, Hstr. apply orb_true_r. }
    rewrite !fmap_app, !fmap_cons, !fmap_app, !fmap_cons. cbn [fst].
    split; intros (t & Ht & Hv).
    + destruct (decide (t = type')) as [->|Hne].
      * exists type. split; [|by apply Hvar].
        rewrite !elem_of_app, !elem_of_cons, !elem_of_app. tauto.
      * exists t. split; [|done]. revert Ht.
        rewrite !elem_of_app, !elem_of_cons, !elem_of_app, !elem_of_cons.
        tauto.
    + exists t. split; [|done]. revert Ht.
      rewrite !elem_of_app, !elem_of_cons, !elem_of_app, !elem_of_cons.
      tauto.
  - unfold set_of_types. f_equal.
    rewrite !composite_types_app, !composite_types_cons,
      !composite_types_app, composite_types_cons, Hbase.
    destruct (is_builtin (base_type_of type)); [done|].
    apply distinct_drop_repeat.
Qed.

(** C9, as the code has it: [is_fixed_length] looks up each distinct
    composite base type of the schema at most once per call (exactly once
    when it returns True), always in the package the type names or else
    the owning one; and a schema in which a later field repeats the base
    type of an earlier field, without being a variable-length array, is
    analysed with the same lookups and the same result as the schema
    without that field. *)
Theorem is_fixed_length_dedup
    (fuel : nat) (spec : MsgSpec) (package : string)
    (pre mid post : list (string * string)) (type name type' name' : string)
    (cs : list Constant) (h : bool) :
  base_type_of type' = base_type_of type →
  ¬ (is_array_of type' = true ∧ array_len_of type' = None) →
  (is_fixed_length_log fuel spec package).2
  = is_fixed_length fuel spec package
  ∧ NoDup (is_fixed_length_log fuel spec package).1
  ∧ NoDup (is_fixed_length_log fuel spec package).1.*1
  ∧ (∀ t pkg, (t, pkg) ∈ (is_fixed_length_log fuel spec package).1 →
       t ∈ composite_types (fields spec) ∧ pkg = lookup_package t package)
  ∧ (is_fixed_length fuel spec package = Ret true →
     ∀ t, t ∈ composite_types (fields spec) →
          (t, lookup_package t package)
          ∈ (is_fixed_length_log fuel spec package).1)
  ∧ is_fixed_length_log fuel
      (mkMsgSpec (pre ++ (type, name) :: mid ++ (type', name') :: post) cs h)
      package
    = is_fixed_length_log fuel
        (mkMsgSpec (pre ++ (type, name) :: mid ++ post) cs h) package
  ∧ is_fixed_length fuel
      (mkMsgSpec (pre ++ (type, name) :: mid ++ (type', name') :: post) cs h)
      package
    = is_fixed_length fuel
        (mkMsgSpec (pre ++ (type, name) :: mid ++ post) cs h) package.
Proof.
  intros Hbase Hfixed.
  destruct (is_fixed_length_log_walk fuel spec package) as [k Hlog].
  assert ((is_fixed_length_log fuel spec package).1.*1
          = take k (set_of_types (composite_types (fields spec)))) as Htypes.
  { rewrite Hlog, <-list_fmap_compose. apply list_fmap_id. }
  assert (NoDup (is_fixed_length_log fuel spec package).1.*1) as Hnd.
  { rewrite Htypes.
    eapply sublist_NoDup; [apply NoDup_set_of_types|apply sublist_take]. }
  assert (is_fixed_length_log fuel
            (mkMsgSpec (pre ++ (type, name) :: mid ++ (type', name') :: post)
                       cs h) package
          = is_fixed_length_log fuel
              (mkMsgSpec (pre ++ (type, name) :: mid ++ post) cs h) package)
    as Hsame.
  { destruct fuel as [|fuel]; [done|]. cbn [is_fixed_length_log fields].
    destruct (collect_types_drop_later pre mid post type name type' name'
                Hbase Hfixed) as [Hnone Hset].
    destruct (collect_types (pre ++ _ :: mid ++ _ :: post) [])
      as [types2|] eqn:H2,
             (collect_types (pre ++ _ :: mid ++ post) [])
      as [types1|] eqn:H1.
    - apply collect_types_Some in H1, H2. cbn in H1, H2. subst.
      by rewrite Hset.
    - discriminate (proj2 Hnone eq_refl).
    - discriminate (proj1 Hnone eq_refl).
    - done. }
  split_and!.
  - apply is_fixed_length_log_result.
  - by eapply NoDup_fmap_1.
  - done.
  - intros t pkg Hin. rewrite Hlog in Hin.
    apply list_elem_of_fmap in Hin as (t' & [= -> ->] & Ht').
    split; [|done]. apply subseteq_take in Ht'.
    by rewrite elem_of_set_of_types in Ht'.
  - intros Htrue t Ht. rewrite <-is_fixed_length_log_result in Htrue.
    destruct fuel as [|fuel]; [done|]. cbn [is_fixed_length_log] in *.
    destruct (collect_types (fields spec) []) as [types|] eqn:Hc; [|done].
    apply collect_types_Some in Hc. cbn in Hc. subst types.
    rewrite (check_types_log_all _ _ _ Htrue).
    apply list_elem_of_fmap. exists t. split; [done|].
    by apply elem_of_set_of_types.
  - done.
  - by rewrite <-!is_fixed_length_log_result, Hsame.
Qed.

Lemma check_types_mono (rec1 rec2 : MsgSpec → string → outcome bool)
    (package : string) (types : list string) :
  (∀ spec pkg, completes (rec1 spec pkg) → rec2 spec pkg = rec1 spec pkg) →
  completes (check_types rec1 package types) →
  check_types rec2 package types = check_types rec1 package types.
Proof.
  intros Hrec. induction types as [|type types IH]; [done|].
  rewrite !check_types_cons.
  destruct (load_by_type _ _) as [e|r]; [done|].
  destruct (rec1 r.2 _) as [b|e|] eqn:Hr; [| |done].
  - rewrite Hrec by (by rewrite Hr). rewrite Hr.
    destruct (negb b); [done|]. apply IH.
  - rewrite Hrec by (by rewrite Hr). by rewrite Hr.
Qed.

(** More recursion budget does not change a verdict, nor an exception. *)
Lemma is_fixed_length_mono (n m : nat) (spec : MsgSpec) (package : string) :
  (n ≤ m)%nat → completes (is_fixed_length n spec package) →
  is_fixed_length m spec package = is_fixed_length n spec package.
Proof.
  revert m spec package. induction n as [|n IH]; intros m spec package Hnm.
  - by intros [].
  - destruct m as [|m]; [lia|]. cbn [is_fixed_length].
    destruct (collect_types (fields spec) []) as [types|]; [|done].
    apply check_types_mono. intros spec' pkg'. apply IH. lia.
Qed.

Lemma is_fixed_length_agree (n1 n2 : nat) (spec : MsgSpec)
    (package : string) :
  completes (is_fixed_length n1 spec package) →
  completes (is_fixed_length n2 spec package) →
  is_fixed_length n1 spec package = is_fixed_length n2 spec package.
Proof.
  intros H1 H2.
  rewrite <-(is_fixed_length_mono n1 (Nat.max n1 n2)) by (done || lia).
  by rewrite <-(is_fixed_length_mono n2 (Nat.max n1 n2)) by (done || lia).
Qed.

Lemma returns_of_fuel (n : nat) (spec : MsgSpec) (package : string)
    (b : bool) :
  is_fixed_length n spec package = Ret b → returns spec package b.
Proof.
  intros Hn. exists n. intros m Hm.
  rewrite (is_fixed_length_mono n m) by (done || by rewrite Hn). done.
Qed.

Lemma returns_unique (spec : MsgSpec) (package : string) (b1 b2 : bool) :
  returns spec package b1 → returns spec package b2 → b1 = b2.
Proof.
  intros [n1 H1] [n2 H2].
  specialize (H1 (Nat.max n1 n2) ltac:(lia)).
  specialize (H2 (Nat.max n1 n2) ltac:(lia)). congruence.
Qed.

(** If every type of the list resolves to a schema on which the analysis
    returns, the second loop returns. *)
Lemma check_types_returns (package : string) (types : list string) :
  (∀ type, type ∈ types →
     ∃ r b, load_by_type type (lookup_package type package) = inr r
            ∧ returns r.2 (lookup_package type package) b) →
  ∃ fuel b, ∀ n, (fuel ≤ n)%nat →
    check_types (is_fixed_length n) package types = Ret b.
Proof.
  induction types as [|type types IH]; intros Hall.
  - by exists 0%nat, true.
  - destruct (Hall type) as (r & b & Hload & [fuel1 Hb]); [by left|].
    destruct IH as (fuel2 & b2 & Hrest);
      [intros t Ht; apply Hall; by right|].
    exists (Nat.max fuel1 fuel2), (if b then b2 else false).
    intros n Hn. rewrite check_types_cons, Hload, Hb by lia.
    destruct b; cbn [negb]; [|done]. apply Hrest. lia.
Qed.

Lemma check_types_all_true (package : string) (types : list string) :
  (∀ type, type ∈ types →
     ∃ r, load_by_type type (lookup_package type package) = inr r
          ∧ returns r.2 (lookup_package type package) true) →
  ∃ fuel, ∀ n, (fuel ≤ n)%nat →
    check_types (is_fixed_length n) package types = Ret true.
Proof.
  induction types as [|type types IH]; intros Hall.
  - by exists 0%nat.
  - destruct (Hall type) as (r & Hload & [fuel1 Hb]); [by left|].
    destruct IH as (fuel2 & Hrest); [intros t Ht; apply Hall; by right|].
    exists (Nat.max fuel1 fuel2).
    intros n Hn. rewrite check_types_cons, Hload, Hb by lia.
    cbn [negb]. apply Hrest. lia.
Qed.

Lemma check_types_true_inv (rec : MsgSpec → string → outcome bool)
    (package : string) (types : list string) :
  check_types rec package types = Ret true →
  ∀ type, type ∈ types →
    ∃ r, load_by_type type (lookup_package type package) = inr r
         ∧ rec r.2 (lookup_package type package) = Ret true.
Proof.
  induction types as [|type types IH]; intros Hc t Ht.
  - by apply elem_of_nil in Ht.
  - rewrite check_types_cons in Hc.
    destruct (load_by_type type _) as [e|r] eqn:Hload; [done|].
    destruct (rec r.2 _) as [[]|e|] eqn:Hr; [|done..].
    apply elem_of_cons in Ht as [->|Ht]; [by exists r|by apply IH].
Qed.

Lemma resolves_total (spec : MsgSpec) (package : string) :
  resolves spec package → ∃ b, returns spec package b.
Proof.
  induction 1 as [spec package Hload _ IH].
  destruct (collect_types (fields spec) []) as [types|] eqn:Hc.
  - pose proof (collect_types_Some _ _ _ Hc) as Htypes.
    cbn in Htypes. subst types.
    destruct (check_types_returns package
                (set_of_types (composite_types (fields spec))))
      as (fuel & b & Hfuel).
    { intros type Ht. rewrite elem_of_set_of_types in Ht.
      destruct (Hload type Ht) as [r Hr].
      destruct (IH type r Ht Hr) as [b Hb]. by exists r, b. }
    exists b, (S fuel). intros [|n] Hn; [lia|].
    cbn [is_fixed_length]. rewrite Hc. apply Hfuel. lia.
  - exists false, 1%nat. intros [|n] Hn; [lia|].
    cbn [is_fixed_length]. by rewrite Hc.
Qed.

Lemma collect_types_Some_iff (spec : MsgSpec) :
  collect_types (fields spec) [] = Some (composite_types (fields spec))
  ↔ ∀ type, type ∈ (fields spec).*1 → variable_length_type type = false.
Proof.
  split.
  - intros Hc type Ht.
    destruct (variable_length_type type) eqn:Hv; [|done].
    assert (collect_types (fields spec) [] = None) as Hnone
      by (apply collect_types_None; by exists type).
    congruence.
  - intros Hok.
    destruct (collect_types (fields spec) []) as [types|] eqn:Hc.
    + by rewrite (collect_types_Some _ _ _ Hc).
    + apply collect_types_None in Hc as (type & Ht & Hv).
      by rewrite (Hok type Ht) in Hv.
Qed.

Lemma variable_length_type_false (type : string) :
  variable_length_type type = false
  ↔ ¬ (is_array_of type = true ∧ array_len_of type = None)
    ∧ base_type_of type ≠ "string".
Proof.
  unfold variable_length_type.
  rewrite orb_false_iff, andb_false_iff, !bool_decide_eq_false.
  destruct (is_array_of type); split; intros [H1 H2]; split; try done.
  - intros [_ Hlen]. by destruct H1.
  - right. intros Hlen. by apply H1.
  - by intros [? _].
  - by left.
Qed.

(** C3: on a schema whose composite types all resolve along an acyclic
    dependency graph, [is_fixed_length] returns, and it returns true
    exactly when no field is a variable-length array, no field has base
    type string, and the schema of every composite field, looked up in
    the field's package or else the owning one, is fixed-length in its
    turn. *)
Theorem is_fixed_length_iff (spec : MsgSpec) (package : string) :
  resolves spec package →
  (∃ b, returns spec package b)
  ∧ (returns spec package true
     ↔ no_variable_array spec ∧ no_string spec ∧ nested_fixed spec package).
Proof.
  intros Hres. split; [by apply resolves_total|].
  destruct Hres as [spec package Hload _].
  split.
  - intros [fuel Hfuel]. specialize (Hfuel (S fuel) ltac:(lia)).
    cbn [is_fixed_length] in Hfuel.
    destruct (collect_types (fields spec) []) as [types|] eqn:Hc; [|done].
    pose proof (collect_types_Some _ _ _ Hc) as Htypes.
    cbn in Htypes. subst types.
    pose proof (proj1 (collect_types_Some_iff spec) Hc) as Hok.
    split_and!.
    + intros type Ht. by apply variable_length_type_false, Hok.
    + intros type Ht. by apply variable_length_type_false, Hok.
    + intros type r Ht Hr.
      destruct (check_types_true_inv _ _ _ Hfuel type) as (r' & Hr' & Hret);
        [by apply elem_of_set_of_types|].
      assert (r' = r) as -> by congruence.
      by apply (returns_of_fuel fuel).
  - intros (Harr & Hstr & Hnested).
    assert (collect_types (fields spec) []
            = Some (composite_types (fields spec))) as Hc.
    { apply (proj2 (collect_types_Some_iff spec)). intros type Ht.
      apply variable_length_type_false. split; [by apply Harr|by apply Hstr]. }
    destruct (check_types_all_true package
                (set_of_types (composite_types (fields spec))))
      as [fuel Hfuel].
    { intros type Ht. rewrite elem_of_set_of_types in Ht.
      destruct (Hload type Ht) as [r Hr]. exists r. split; [done|].
      by apply Hnested. }
    exists (S fuel). intros [|n] Hn; [lia|].
    cbn [is_fixed_length]. rewrite Hc. apply Hfuel. lia.
Qed.

(** ** The orchestrator *)

Lemma write_traits_bodies_agree (n1 n2 : nat) (s : StringIO)
    (spec : MsgSpec) (pkg msg : string) :
  completes (write_traits_bodies n1 s spec pkg msg) →
  completes (write_traits_bodies n2 s spec pkg msg) →
  write_traits_bodies n1 s spec pkg msg
  = write_traits_bodies n2 s spec pkg msg.
Proof.
  intros H1 H2.
  assert (completes (is_fixed_length n1 spec pkg)) as Hf1.
  { intros Hf. apply H1. unfold write_traits_bodies. by rewrite Hf. }
  assert (completes (is_fixed_length n2 spec pkg)) as Hf2.
  { intros Hf. apply H2. unfold write_traits_bodies. by rewrite Hf. }
  unfold write_traits_bodies.
  by rewrite (is_fixed_length_agree n1 n2).
Qed.

(** Two runs on one path that both go through give the same outcome,
    whatever recursion budget each was given. *)
Lemma generate_fuel_independent (n1 n2 : nat) (msg_path : string) :
  completes (generate n1 msg_path) → completes (generate n2 msg_path) →
  generate n1 msg_path = generate n2 msg_path.
Proof.
  unfold generate.
  destruct (get_dir_pkg msg_path) as [package_dir package].
  destruct (load_from_file msg_path) as [e|[name spec]]; [done|].
  cbn [of_sum mbind outcome_bind].
  destruct (write_struct _ _ _ _) as [s|e|]; [|done..].
  cbn [mbind outcome_bind]. intros H1 H2.
  rewrite (write_traits_bodies_agree n1 n2); [done|..].
  - intros Hf. apply H1. by rewrite Hf.
  - intros Hf. apply H2. by rewrite Hf.
Qed.

End Properties.

(** C1: on a definition line that holds double quotes the returned text
    keeps them as they are, so the fragment is not the escaped one and
    its quotes end the C++ literal early. *)
Theorem compute_full_text_escaped_keeps_quotes :
  let text := "# the " +:+ Q +:+ "name" +:+ Q in
  let R := RoslibModel.roslib (RoslibModel.empty_world "" text) in
  compute_full_text_escaped (R := R) ("", text)
  = Q +:+ "# the " +:+ Q +:+ "name" +:+ Q +:+ BS +:+ "n" +:+ Q +:+ NL
  ∧ full_text_escaped_spec text
    = Q +:+ "# the " +:+ BS +:+ Q +:+ "name" +:+ BS +:+ Q +:+ BS +:+ "n"
        +:+ Q +:+ NL
  ∧ literal_safe false (text +:+ BS +:+ "n") = false.
Proof. by vm_compute. Qed.


(** ** The generator at work on the example schemas *)

Section Runs.

Local Existing Instance RoslibModel.gset_order.

Import Examples.

(** The example roslib parses the numeric kind names as scalars. *)
Lemma geometry_parses_numeric_kinds (t : string) :
  t ∈ numeric_kinds → parse_type (Roslib := geometry) t = (t, false, None).
Proof.
  unfold numeric_kinds. intros Hin.
  repeat (apply elem_of_cons in Hin as [->|Hin]); [reflexivity..|].
  by apply elem_of_nil in Hin.
Defined.

(** A bool constant is turned down although bool is one of the
    numeric/bool kinds. *)
Lemma write_constant_rejects_bool :
  "bool" ∈ numeric_or_bool_kinds
  ∧ write_constant (R := geometry) "" (mkConstant "bool" "ENABLED" "1")
    = Raise (ValueError "bool not supported as a constant").
Proof.
  split; [|reflexivity].
  unfold numeric_or_bool_kinds, numeric_kinds. cbn [app].
  by repeat first [left | right].
Qed.

Lemma write_constant_numeric_only_witness :
  (∀ t, t ∈ numeric_kinds →
        parse_type (Roslib := geometry) t = (t, false, None))
  ∧ ((∃ e, write_constant (R := geometry) "" (mkConstant "int32" "MAX" "16")
           = Raise e)
     ↔ "int32" ∉ numeric_kinds).
Proof.
  split; [exact geometry_parses_numeric_kinds|].
  exact (proj1 (write_constant_numeric_only (R := geometry) ""
                  (mkConstant "int32" "MAX" "16")
                  geometry_parses_numeric_kinds)).
Defined.

(** A bare name that is not the header type stays bare: the mapped
    expression of [Segment] carries no package qualifier. *)
Lemma msg_type_to_cpp_bare_name :
  is_builtin (Roslib := geometry) "Segment" = false
  ∧ is_header_type (Roslib := geometry) "Segment" = false
  ∧ msg_type_to_cpp (R := geometry) "Segment" = Ret "Segment"
  ∧ ¬ ∃ pkg name, "Segment" = pkg +:+ "::" +:+ name.
Proof.
  split_and!; [reflexivity..|].
  intros (pkg & name & Heq).
  do 7 (destruct pkg as [|? pkg]; [discriminate Heq|];
        rewrite append_cons in Heq; injection Heq as _ Heq).
  destruct pkg; discriminate Heq.
Qed.

Lemma msg_type_to_cpp_composite_witness :
  parse_type (Roslib := geometry) "geometry/Point[3]"
  = ("geometry/Point", true, Some 3)
  ∧ is_builtin (Roslib := geometry) "geometry/Point" = false
  ∧ msg_type_to_cpp (R := geometry) "geometry/Point[3]"
    = Ret "boost::array<geometry::Point, 3>".
Proof.
  split_and!; [reflexivity..|].
  destruct (msg_type_to_cpp_composite (R := geometry)
              "geometry/Point[3]" "geometry/Point" true (Some 3)
              eq_refl eq_refl) as (cpp_type & _ & Hqual & ->).
  by rewrite (Hqual "geometry" "Point" eq_refl eq_refl eq_refl).
Defined.

(** Two fields of one type give the same include twice. *)
Lemma write_includes_repeats :
  getvalue (write_includes (R := geometry) "" Segment)
  = includes_section (R := geometry) ["geometry/Point"; "geometry/Point"]
  ∧ remove_dups (composite_types (R := geometry) (fields Segment))
    = ["geometry/Point"]
  ∧ getvalue (write_includes (R := geometry) "" Segment)
    ≠ includes_section (R := geometry)
        (remove_dups (composite_types (R := geometry) (fields Segment))).
Proof. split_and!; [by vm_compute..|]. vm_compute. discriminate. Qed.

(** A string field does get an entry in the initializer list. *)
Lemma write_constructor_initializes_string :
  getvalue (write_constructor (R := geometry) "" "Name" Name)
  = "  Name()" +:+ NL +:+ "  :   s()" +:+ NL
    +:+ "  {" +:+ NL +:+ "  }" +:+ NL +:+ NL
  ∧ family_of "string" = Other
  ∧ constructor_text (R := geometry) "Name"
      (initializer_list_literals_only (R := geometry) (fields Name))
      (fields Name)
    = "  Name()" +:+ NL +:+ "  {" +:+ NL +:+ "  }" +:+ NL +:+ NL.
Proof. split_and!; by vm_compute. Qed.

Lemma guard_macro_ignores_case_witness :
  same_up_to_case "Geometry" "geometry"
  ∧ same_up_to_case "Path" "PATH"
  ∧ guard_macro "Geometry" "Path" = guard_macro "geometry" "PATH".
Proof.
  assert (same_up_to_case "Geometry" "geometry") as Hpkg.
  { repeat (constructor;
            [first [ by left
                   | right; left; split; reflexivity
                   | right; right; split; reflexivity ]|]).
    constructor. }
  assert (same_up_to_case "Path" "PATH") as Hmsg.
  { repeat (constructor;
            [first [ by left
                   | right; left; split; reflexivity
                   | right; right; split; reflexivity ]|]).
    constructor. }
  split_and!; [done..|].
  exact (proj2 (proj2 (guard_macro_ignores_case "" _ _ "Path.msg" _ _
                         Hpkg Hmsg))).
Defined.

(** The dependency graph below [Path] is acyclic and resolves:
    [Path] refers to [Segment], which refers to [Point]. *)
Lemma Path_resolves : resolves (R := geometry) Path "geometry".
Proof.
  constructor.
  - intros type Hin. vm_compute in Hin.
    apply elem_of_cons in Hin as [->|Hin]; [by eexists|].
    by apply elem_of_nil in Hin.
  - intros type r Hin Hload. vm_compute in Hin.
    apply elem_of_cons in Hin as [->|Hin]; [|by apply elem_of_nil in Hin].
    injection Hload as <-. constructor.
    + intros type Hin. vm_compute in Hin.
      repeat (apply elem_of_cons in Hin as [->|Hin]; [by eexists|]).
      by apply elem_of_nil in Hin.
    + intros type r Hin Hload. vm_compute in Hin.
      repeat (apply elem_of_cons in Hin as [->|Hin];
              [injection Hload as <-; constructor;
               intros t; [intros Ht|intros r' Ht _];
               vm_compute in Ht; by apply elem_of_nil in Ht|]).
      by apply elem_of_nil in Hin.
Defined.

Example Path_fixed_length :
  is_fixed_length (R := geometry) 3 Path "geometry" = Ret true
  ∧ is_fixed_length (R := geometry) 2 Path "geometry" = OutOfFuel
  ∧ is_fixed_length (R := geometry) 1 Name "geometry" = Ret false.
Proof. split_and!; reflexivity. Qed.

Lemma is_fixed_length_iff_witness :
  resolves (R := geometry) Path "geometry"
  ∧ (∃ b, returns (R := geometry) Path "geometry" b)
  ∧ (returns (R := geometry) Path "geometry" true
     ↔ no_variable_array (R := geometry) Path
       ∧ no_string (R := geometry) Path
       ∧ nested_fixed (R := geometry) Path "geometry").
Proof.
  split; [exact Path_resolves|].
  exact (is_fixed_length_iff (R := geometry) Path "geometry" Path_resolves).
Defined.

End Runs.

(** * Further properties of the generator *)

Section MoreProperties.

Context `{R : Roslib} `{P : PySet}.

(** ** The type mapper, on every type *)

(** X1: once the type has been parsed, the only way [msg_type_to_cpp]
    fails is a KeyError for a base type that roslib calls builtin and the
    table does not know; a parsed composite type, whatever its spelling,
    is always mapped. *)
Theorem msg_type_to_cpp_raises_only_KeyError
    (type base_type : string) (is_array : bool) (array_len : option Z) :
  parse_type type = (base_type, is_array, array_len) →
  (∀ e, msg_type_to_cpp type = Raise e
        ↔ e = KeyError base_type
          ∧ is_builtin base_type = true
          ∧ MSG_TYPE_TO_CPP !! base_type = None)
  ∧ msg_type_to_cpp type ≠ OutOfFuel.
Proof.
  intros Hparse. unfold msg_type_to_cpp. rewrite Hparse.
  destruct (is_builtin base_type) eqn:Hb.
  - destruct (MSG_TYPE_TO_CPP !! base_type) as [t|] eqn:Ht.
    + cbn [mbind outcome_bind].
      destruct is_array, array_len;
        (split; [intros e; split; [done|by intros (_ & _ & ?)]|done]).
    + cbn [mbind outcome_bind]. split; [|done].
      intros e. split; [by intros [= <-]|by intros (-> & _ & _)].
  - pose proof (split_nonempty slash base_type) as Hne.
    destruct (split slash base_type) as [|p [|m rest]]; [done|..];
      try destruct (is_header_type base_type);
      cbn [mbind outcome_bind];
      destruct is_array, array_len;
      (split; [intros e; split; [done|by intros (_ & ? & _)]|done]).
Qed.

(** X2: when every builtin kind has an entry in the table,
    [msg_type_to_cpp] maps every type that has been parsed, and a builtin
    scalar to its table entry. *)
Theorem msg_type_to_cpp_total
    (type base_type : string) (is_array : bool) (array_len : option Z) :
  parse_type type = (base_type, is_array, array_len) →
  (∀ t, is_builtin t = true → is_Some (MSG_TYPE_TO_CPP !! t)) →
  ∃ cpp_type,
    msg_type_to_cpp type = Ret cpp_type
    ∧ (is_builtin base_type = true → is_array = false →
       MSG_TYPE_TO_CPP !! base_type = Some cpp_type).
Proof.
  intros Hparse Htable. unfold msg_type_to_cpp. rewrite Hparse.
  destruct (is_builtin base_type) eqn:Hb.
  - destruct (Htable _ Hb) as [t ->]. cbn [mbind outcome_bind].
    destruct is_array, array_len; by eexists.
  - pose proof (split_nonempty slash base_type) as Hne.
    destruct (split slash base_type) as [|p [|m rest]]; [done|..];
      try destruct (is_header_type base_type);
      cbn [mbind outcome_bind];
      destruct is_array, array_len; by eexists.
Qed.

(** X3: the array forms of a type wrap the very expression its scalar form
    maps to: [T[]] gives [std::vector] of it and [T[n]] gives
    [boost::array] of it with the length [n], for builtin and composite
    base types alike. *)
Theorem msg_type_to_cpp_array_wrapping
    (scalar var fixed base_type cpp_type : string) (n : Z) (len : option Z) :
  parse_type scalar = (base_type, false, len) →
  parse_type var = (base_type, true, None) →
  parse_type fixed = (base_type, true, Some n) →
  msg_type_to_cpp scalar = Ret cpp_type →
  msg_type_to_cpp var = Ret ("std::vector<" +:+ cpp_type +:+ ">")
  ∧ msg_type_to_cpp fixed
    = Ret ("boost::array<" +:+ cpp_type +:+ ", " +:+ pretty n +:+ ">").
Proof.
  unfold msg_type_to_cpp. intros -> -> ->.
  destruct (if is_builtin base_type then _ else _) as [t|e|];
    cbn [mbind outcome_bind]; [|done..].
  by intros [= ->].
Qed.

(** ** Members *)

Lemma write_member_decl (s : StringIO) (type name : string) :
  write_member s type name
  = cpp_type ← msg_type_to_cpp type; Ret (s +:+ member_decl cpp_type name).
Proof.
  unfold write_member, member_decl, write.
  destruct (msg_type_to_cpp type); cbn [mbind outcome_bind]; [|done..].
  by rewrite !append_assoc.
Qed.

Lemma write_members_app (s : StringIO) (fs1 fs2 : list (string * string)) :
  for_each (λ s '(type, name), write_member s type name) s (fs1 ++ fs2)
  = s' ← for_each (λ s '(type, name), write_member s type name) s fs1;
    for_each (λ s '(type, name), write_member s type name) s' fs2.
Proof.
  revert s. induction fs1 as [|[type name] fs1 IH]; intros s; [done|].
  cbn [for_each app].
  destruct (write_member s type name); cbn [mbind outcome_bind]; [|done..].
  apply IH.
Qed.

Lemma write_members_mapped (fs : list (string * string)) (cpps : list string)
    (s : StringIO) :
  Forall2 (λ f cpp_type, msg_type_to_cpp f.1 = Ret cpp_type) fs cpps →
  for_each (λ s '(type, name), write_member s type name) s fs
  = Ret (s +:+ concat (zip_with member_decl cpps fs.*2)).
Proof.
  intros Hall. revert s.
  induction Hall as [|[type name] cpp fs cpps Hcpp _ IH]; intros s.
  - cbn. by rewrite append_nil_r.
  - cbn [for_each]. rewrite write_member_decl. cbn [fst] in Hcpp.
    rewrite Hcpp. cbn [mbind outcome_bind]. rewrite IH.
    cbn [fmap list_fmap zip_with concat snd]. by rewrite append_assoc.
Qed.

(** X4: when every field type maps, [write_members] declares the fields in
    declaration order, each with a type alias [_name_type] of the very
    type the member is declared with. *)
Theorem write_members_declares_each_field
    (s : StringIO) (spec : MsgSpec) (cpps : list string) :
  Forall2 (λ f cpp_type, msg_type_to_cpp f.1 = Ret cpp_type)
          (fields spec) cpps →
  write_members s spec
  = Ret (s +:+ concat (zip_with member_decl cpps (fields spec).*2)).
Proof. intros Hall. unfold write_members. by apply write_members_mapped. Qed.

(** X5: [write_members] stops at the first field whose type does not map
    and raises that field's exception; the fields after it are not looked
    at. *)
Theorem write_members_first_failure
    (s : StringIO) (spec : MsgSpec) (pre post : list (string * string))
    (f : string * string) (cpps : list string) (e : exn) :
  fields spec = pre ++ f :: post →
  Forall2 (λ f cpp_type, msg_type_to_cpp f.1 = Ret cpp_type) pre cpps →
  msg_type_to_cpp f.1 = Raise e →
  write_members s spec = Raise e.
Proof.
  intros Hfields Hpre Hf. unfold write_members.
  rewrite Hfields, write_members_app, (write_members_mapped _ _ _ Hpre).
  cbn [mbind outcome_bind for_each]. destruct f as [type name].
  rewrite write_member_decl. cbn [fst] in Hf. by rewrite Hf.
Qed.

(** ** Constants *)

Lemma write_constant_numeric (s : StringIO) (c : Constant) :
  (∀ t, t ∈ numeric_kinds → parse_type t = (t, false, None)) →
  const_type c ∈ numeric_kinds →
  ∃ cpp_type,
    msg_type_to_cpp (const_type c) = Ret cpp_type
    ∧ write_constant s c
      = Ret (s +:+ constant_binding cpp_type (const_name c) (const_val c)).
Proof.
  intros Hparse Hin. unfold write_constant.
  rewrite bool_decide_eq_true_2 by done. cbn [negb].
  assert (∃ cpp_type, msg_type_to_cpp (const_type c) = Ret cpp_type)
    as [cpp_type Hcpp].
  { unfold msg_type_to_cpp. rewrite (Hparse _ Hin).
    destruct (is_builtin (const_type c)).
    - destruct (numeric_kind_mapped _ Hin) as [t ->]. by eexists.
    - rewrite (numeric_kind_no_slash _ Hin).
      destruct (is_header_type (const_type c)); by eexists. }
  exists cpp_type. by rewrite Hcpp.
Qed.

Lemma write_constant_unsupported (s : StringIO) (c : Constant) :
  const_type c ∉ numeric_kinds →
  write_constant s c
  = Raise (ValueError (const_type c +:+ " not supported as a constant")).
Proof. intros Hnot. unfold write_constant. by rewrite bool_decide_eq_false_2. Qed.

Lemma for_each_constants_numeric (cs : list Constant) (s : StringIO) :
  (∀ t, t ∈ numeric_kinds → parse_type t = (t, false, None)) →
  Forall (λ c, const_type c ∈ numeric_kinds) cs →
  ∃ cpps,
    Forall2 (λ c cpp_type, msg_type_to_cpp (const_type c) = Ret cpp_type)
            cs cpps
    ∧ ∀ s, for_each write_constant s cs
           = Ret (s +:+ concat (zip_with
                                  (λ cpp_type c,
                                     constant_binding cpp_type (const_name c)
                                                      (const_val c))
                                  cpps cs)).
Proof.
  intros Hparse Hall. clear s.
  induction Hall as [|c cs Hc _ (cpps & Hcpps & IH)].
  - exists []. split; [constructor|]. intros s. cbn. by rewrite append_nil_r.
  - destruct (write_constant_numeric "" c Hparse Hc) as (cpp & Hcpp & _).
    exists (cpp :: cpps). split; [by constructor|]. intros s.
    cbn [for_each].
    destruct (write_constant_numeric s c Hparse Hc) as (cpp' & Hcpp' & ->).
    assert (cpp' = cpp) as -> by congruence.
    cbn [mbind outcome_bind]. rewrite IH.
    cbn [zip_with concat]. by rewrite append_assoc.
Qed.

(** X6: when every constant has a numeric kind, [write_constants] writes
    one binding per constant, in declaration order, and closes the block
    with an empty line. *)
Theorem write_constants_binds_each (s : StringIO) (spec : MsgSpec) :
  (∀ t, t ∈ numeric_kinds → parse_type t = (t, false, None)) →
  Forall (λ c, const_type c ∈ numeric_kinds) (constants spec) →
  ∃ cpps,
    Forall2 (λ c cpp_type, msg_type_to_cpp (const_type c) = Ret cpp_type)
            (constants spec) cpps
    ∧ write_constants s spec
      = Ret (s +:+ concat (zip_with
                             (λ cpp_type c,
                                constant_binding cpp_type (const_name c)
                                                 (const_val c))
                             cpps (constants spec))
               +:+ NL).
Proof.
  intros Hparse Hall.
  destruct (for_each_constants_numeric _ s Hparse Hall) as (cpps & Hcpps & Hs).
  exists cpps. split; [done|].
  unfold write_constants. rewrite Hs. cbn [mbind outcome_bind].
  unfold write. by rewrite append_assoc.
Qed.

Lemma for_each_constants_app (s : StringIO) (cs1 cs2 : list Constant) :
  for_each write_constant s (cs1 ++ cs2)
  = s' ← for_each write_constant s cs1; for_each write_constant s' cs2.
Proof.
  revert s. induction cs1 as [|c cs1 IH]; intros s; [done|].
  cbn [for_each app].
  destruct (write_constant s c); cbn [mbind outcome_bind]; [|done..].
  apply IH.
Qed.

(** X7: [write_constants] raises at the first constant whose type is not a
    numeric kind, naming that type; nothing of the block is returned. *)
Theorem write_constants_first_unsupported
    (s : StringIO) (spec : MsgSpec) (pre post : list Constant) (c : Constant) :
  (∀ t, t ∈ numeric_kinds → parse_type t = (t, false, None)) →
  constants spec = pre ++ c :: post →
  Forall (λ c, const_type c ∈ numeric_kinds) pre →
  const_type c ∉ numeric_kinds →
  write_constants s spec
  = Raise (ValueError (const_type c +:+ " not supported as a constant")).
Proof.
  intros Hparse Hcs Hpre Hc. unfold write_constants.
  destruct (for_each_constants_numeric _ s Hparse Hpre) as (cpps & _ & Hs).
  rewrite Hcs, for_each_constants_app, Hs. cbn [mbind outcome_bind for_each].
  by rewrite write_constant_unsupported.
Qed.

(** ** Emitters only append *)

Lemma prepend_app (s t : string) (o : outcome string) :
  prepend (s +:+ t) o = prepend s (prepend t o).
Proof. destruct o; cbn; [|done..]. by rewrite append_assoc. Qed.

Lemma write_begin_prefix (s : StringIO) (pkg msg file : string) :
  write_begin s pkg msg file = s +:+ write_begin "" pkg msg file.
Proof. unfold write_begin, write. by rewrite ?append_assoc. Qed.

Lemma write_end_prefix (s : StringIO) (pkg msg : string) :
  write_end s pkg msg = s +:+ write_end "" pkg msg.
Proof. unfold write_end, write. by rewrite ?append_assoc. Qed.

Lemma write_includes_text (s : StringIO) (spec : MsgSpec) :
  write_includes s spec
  = s +:+ includes_section (composite_types (fields spec)).
Proof.
  unfold write_includes, includes_section.
  match goal with
  | |- write (foldl ?f ?s0 _) _ = _ =>
      assert (∀ fs s1, foldl f s1 fs
              = s1 +:+ concat (include_line <$> composite_types fs)) as ->
  end.
  { induction fs as [|[type name] fs IH]; intros s1.
    - cbn. by rewrite append_nil_r.
    - cbn [foldl]. rewrite IH, composite_types_cons, (parse_type_eta type).
      destruct (is_builtin (base_type_of type)); cbn [negb]; [done|].
      cbn [fmap list_fmap concat]. unfold include_line at 2.
      destruct (is_header_type (base_type_of type));
        unfold write; by rewrite ?append_assoc. }
  unfold write, fixed_includes. by rewrite ?append_assoc.
Qed.

Lemma write_includes_prefix (s : StringIO) (spec : MsgSpec) :
  write_includes s spec = s +:+ write_includes "" spec.
Proof. by rewrite (write_includes_text s), (write_includes_text ""). Qed.

Lemma write_constructor_text (s : StringIO) (msg : string) (spec : MsgSpec) :
  write_constructor s msg spec
  = s +:+ constructor_text msg (initializer_list (fields spec)) (fields spec).
Proof.
  unfold write_constructor, constructor_text, initializer_list.
  rewrite write_fills, write_initializers_entries.
  unfold write. by rewrite ?append_assoc.
Qed.

Lemma write_constructor_prefix (s : StringIO) (msg : string) (spec : MsgSpec) :
  write_constructor s msg spec = s +:+ write_constructor "" msg spec.
Proof. by rewrite (write_constructor_text s), (write_constructor_text ""). Qed.

Lemma write_deprecated_member_functions_prefix (s : StringIO) (spec : MsgSpec)
    (pkg msg : string) :
  write_deprecated_member_functions s spec pkg msg
  = s +:+ write_deprecated_member_functions "" spec pkg msg.
Proof.
  unfold write_deprecated_member_functions, write. by rewrite ?append_assoc.
Qed.

Lemma write_traits_declarations_prefix (s : StringIO) (spec : MsgSpec)
    (pkg msg : string) :
  write_traits_declarations s spec pkg msg
  = s +:+ write_traits_declarations "" spec pkg msg.
Proof. unfold write_traits_declarations, write. by rewrite ?append_assoc. Qed.

Lemma write_serialization_declarations_prefix (s : StringIO) (spec : MsgSpec)
    (pkg msg : string) :
  write_serialization_declarations s spec pkg msg
  = s +:+ write_serialization_declarations "" spec pkg msg.
Proof.
  unfold write_serialization_declarations, write. by rewrite ?append_assoc.
Qed.

Lemma write_serialization_bodies_prefix (s : StringIO) (spec : MsgSpec)
    (pkg msg : string) :
  write_serialization_bodies s spec pkg msg
  = s +:+ write_serialization_bodies "" spec pkg msg.
Proof.
  unfold write_serialization_bodies.
  rewrite !(foldl_write_names (λ name, length_stmt name)).
  rewrite !(foldl_write_names (λ name, deserialize_stmt name)).
  rewrite !(foldl_write_names (λ name, serialize_stmt name)).
  unfold write. by rewrite ?append_assoc.
Qed.

Lemma write_member_prefix (s : StringIO) (type name : string) :
  write_member s type name = prepend s (write_member "" type name).
Proof.
  rewrite !write_member_decl. unfold prepend.
  by destruct (msg_type_to_cpp type).
Qed.

Lemma write_constant_prefix (s : StringIO) (c : Constant) :
  write_constant s c = prepend s (write_constant "" c).
Proof.
  unfold write_constant, prepend.
  destruct (negb _); [done|].
  destruct (msg_type_to_cpp (const_type c)); cbn [mbind outcome_bind]; [|done..].
  unfold write. by rewrite append_nil_l.
Qed.

(** A loop of appending steps appends. *)
Lemma for_each_prefix {B : Type} (body : StringIO → B → outcome StringIO)
    (l : list B) (s : StringIO) :
  (∀ s x, body s x = prepend s (body "" x)) →
  for_each body s l = prepend s (for_each body "" l).
Proof.
  intros Hbody. revert s. induction l as [|x l IH]; intros s.
  - cbn. by rewrite append_nil_r.
  - cbn [for_each]. rewrite (Hbody s x).
    destruct (body "" x) as [t|e|]; cbn [prepend mbind outcome_bind]; [|done..].
    rewrite (IH (s +:+ t)), (IH t). apply prepend_app.
Qed.

Lemma write_members_prefix (s : StringIO) (spec : MsgSpec) :
  write_members s spec = prepend s (write_members "" spec).
Proof.
  unfold write_members. apply for_each_prefix.
  intros s' [type name]. apply write_member_prefix.
Qed.

Lemma write_constants_prefix (s : StringIO) (spec : MsgSpec) :
  write_constants s spec = prepend s (write_constants "" spec).
Proof.
  unfold write_constants.
  rewrite (for_each_prefix write_constant _ s) by apply write_constant_prefix.
  destruct (for_each write_constant "" (constants spec));
    cbn [prepend mbind outcome_bind]; [|done..].
  unfold write. by rewrite append_assoc.
Qed.

Lemma write_struct_prefix (s : StringIO) (spec : MsgSpec) (pkg msg : string) :
  write_struct s spec pkg msg = prepend s (write_struct "" spec pkg msg).
Proof.
  unfold write_struct.
  rewrite (write_members_prefix (write_constructor (write s _) msg spec)).
  rewrite (write_members_prefix (write_constructor (write "" _) msg spec)).
  destruct (write_members "" spec) as [tm|e|];
    cbn [prepend mbind outcome_bind]; [|done..].
  rewrite (write_constants_prefix (write_constructor (write s _) msg spec +:+ tm)).
  rewrite (write_constants_prefix (write_constructor (write "" _) msg spec +:+ tm)).
  destruct (write_constants "" spec) as [tc|e|];
    cbn [prepend mbind outcome_bind]; [|done..].
  rewrite (write_deprecated_member_functions_prefix (_ +:+ tc)).
  rewrite (write_deprecated_member_functions_prefix
             ((write_constructor (write "" _) msg spec +:+ tm) +:+ tc)).
  rewrite (write_constructor_prefix (write s _)).
  rewrite (write_constructor_prefix (write "" _)).
  unfold write. by rewrite ?append_assoc.
Qed.

Lemma write_traits_bodies_prefix (fuel : nat) (s : StringIO) (spec : MsgSpec)
    (pkg msg : string) :
  write_traits_bodies fuel s spec pkg msg
  = prepend s (write_traits_bodies fuel "" spec pkg msg).
Proof.
  unfold write_traits_bodies.
  destruct (is_fixed_length fuel spec pkg) as [b|e|];
    cbn [prepend mbind outcome_bind]; [|done..].
  destruct (has_header spec), b; unfold write; by rewrite ?append_assoc.
Qed.

(** X8: no emitter touches what is already in the buffer, and what it adds
    does not depend on it: the result is the old contents followed by
    what the emitter writes into an empty buffer, and an emitter that
    raises does so whatever the buffer holds. *)
Theorem emitters_append_only (fuel : nat) (s : StringIO) (spec : MsgSpec)
    (pkg msg file : string) :
  write_begin s pkg msg file = s +:+ write_begin "" pkg msg file
  ∧ write_includes s spec = s +:+ write_includes "" spec
  ∧ write_traits_declarations s spec pkg msg
    = s +:+ write_traits_declarations "" spec pkg msg
  ∧ write_serialization_declarations s spec pkg msg
    = s +:+ write_serialization_declarations "" spec pkg msg
  ∧ write_constructor s msg spec = s +:+ write_constructor "" msg spec
  ∧ write_members s spec = prepend s (write_members "" spec)
  ∧ write_constants s spec = prepend s (write_constants "" spec)
  ∧ write_deprecated_member_functions s spec pkg msg
    = s +:+ write_deprecated_member_functions "" spec pkg msg
  ∧ write_struct s spec pkg msg = prepend s (write_struct "" spec pkg msg)
  ∧ write_traits_bodies fuel s spec pkg msg
    = prepend s (write_traits_bodies fuel "" spec pkg msg)
  ∧ write_serialization_bodies s spec pkg msg
    = s +:+ write_serialization_bodies "" spec pkg msg
  ∧ write_end s pkg msg = s +:+ write_end "" pkg msg.
Proof.
  split_and!.
  - apply write_begin_prefix.
  - apply write_includes_prefix.
  - apply write_traits_declarations_prefix.
  - apply write_serialization_declarations_prefix.
  - apply write_constructor_prefix.
  - apply write_members_prefix.
  - apply write_constants_prefix.
  - apply write_deprecated_member_functions_prefix.
  - apply write_struct_prefix.
  - apply write_traits_bodies_prefix.
  - apply write_serialization_bodies_prefix.
  - apply write_end_prefix.
Qed.

(** ** The orchestrator *)

(** X9: the unit that [generate] writes goes to
    [<package dir>/msg/cpp/<package>/<name>.h] and holds, in this order:
    the guard opening, the includes, the forward declaration, the traits
    and serialization declarations, the struct inside its namespace, the
    traits and serialization bodies, the guard closing and a final
    newline; each part is what its emitter writes on its own. *)
Theorem generate_layout (fuel : nat)
    (msg_path package_dir package name : string) (spec : MsgSpec)
    (struct traits : string) :
  get_dir_pkg msg_path = (package_dir, package) →
  load_from_file msg_path = inr (name, spec) →
  write_struct "" spec package name = Ret struct →
  write_traits_bodies fuel "" spec package name = Ret traits →
  generate fuel msg_path
  = Ret {| unit_path := package_dir +:+ "/msg/cpp/" +:+ package +:+ "/"
                        +:+ name +:+ ".h";
           unit_text :=
             write_begin "" package name msg_path
             +:+ write_includes "" spec
             +:+ "namespace " +:+ package +:+ " { struct " +:+ name +:+ "; }"
             +:+ NL +:+ NL
             +:+ write_traits_declarations "" spec package name
             +:+ write_serialization_declarations "" spec package name
             +:+ "namespace " +:+ package +:+ NL +:+ "{" +:+ NL
             +:+ struct
             +:+ "} // namespace " +:+ package +:+ NL +:+ NL
             +:+ traits
             +:+ write_serialization_bodies "" spec package name
             +:+ write_end "" package name
             +:+ NL |}.
Proof.
  intros Hdir Hload Hstruct Htraits. unfold generate.
  rewrite Hdir, Hload. cbn [of_sum mbind outcome_bind].
  rewrite write_struct_prefix, Hstruct. cbn [prepend mbind outcome_bind].
  rewrite write_traits_bodies_prefix, Htraits.
  cbn [prepend mbind outcome_bind]. f_equal.
  f_equal; [by rewrite !append_assoc|].
  rewrite write_end_prefix, write_serialization_bodies_prefix.
  unfold write_struct_bodies, getvalue.
  rewrite (write_serialization_declarations_prefix
             (write_traits_declarations _ _ _ _)).
  rewrite (write_traits_declarations_prefix (write _ _)).
  rewrite (write_includes_prefix (write_begin _ _ _ _)).
  unfold write. by rewrite !append_assoc.
Qed.

Lemma all_fields_map (fs : list (string * string)) :
  (∀ type, ∃ cpp_type, msg_type_to_cpp type = Ret cpp_type) →
  ∃ cpps, Forall2 (λ f cpp_type, msg_type_to_cpp f.1 = Ret cpp_type) fs cpps.
Proof.
  intros Htotal. induction fs as [|[type name] fs [cpps IH]].
  - exists []. constructor.
  - destruct (Htotal type) as [cpp Hcpp]. exists (cpp :: cpps).
    by constructor.
Qed.

Lemma msg_type_to_cpp_exhaustive (type : string) :
  (∀ t, is_builtin t = true → is_Some (MSG_TYPE_TO_CPP !! t)) →
  ∃ cpp_type, msg_type_to_cpp type = Ret cpp_type.
Proof.
  intros Htable. unfold msg_type_to_cpp. rewrite (parse_type_eta type).
  destruct (is_builtin (base_type_of type)) eqn:Hb.
  - destruct (Htable _ Hb) as [t ->]. cbn [mbind outcome_bind].
    destruct (is_array_of type), (array_len_of type); by eexists.
  - pose proof (split_nonempty slash (base_type_of type)) as Hne.
    destruct (split slash (base_type_of type)) as [|p [|m rest]]; [done|..];
      try destruct (is_header_type (base_type_of type));
      cbn [mbind outcome_bind];
      destruct (is_array_of type), (array_len_of type); by eexists.
Qed.

(** X10: a constant of an unsupported type aborts the whole generation: when
    the field types map, [generate] raises the ValueError of the first
    such constant and leaves no unit, and it does so before the
    fixed-length analysis is reached, whatever the recursion budget. *)
Theorem generate_aborts_on_unsupported_constant (fuel : nat)
    (msg_path package_dir package name : string) (spec : MsgSpec)
    (cpps : list string) (pre post : list Constant) (c : Constant) :
  (∀ t, t ∈ numeric_kinds → parse_type t = (t, false, None)) →
  get_dir_pkg msg_path = (package_dir, package) →
  load_from_file msg_path = inr (name, spec) →
  Forall2 (λ f cpp_type, msg_type_to_cpp f.1 = Ret cpp_type)
          (fields spec) cpps →
  constants spec = pre ++ c :: post →
  Forall (λ c, const_type c ∈ numeric_kinds) pre →
  const_type c ∉ numeric_kinds →
  generate fuel msg_path
  = Raise (ValueError (const_type c +:+ " not supported as a constant")).
Proof.
  intros Hparse Hdir Hload Hfields Hcs Hpre Hc. unfold generate.
  rewrite Hdir, Hload. cbn [of_sum mbind outcome_bind].
  unfold write_struct.
  unfold write_members. rewrite (write_members_mapped _ _ _ Hfields).
  cbn [mbind outcome_bind]. unfold write_constants.
  destruct (for_each_constants_numeric _ "" Hparse Hpre) as (cs & _ & Hs).
  rewrite Hcs, for_each_constants_app, Hs. cbn [mbind outcome_bind for_each].
  by rewrite write_constant_unsupported.
Qed.

(** X11: on a well-formed schema [generate] returns: when the schema file
    loads, every builtin kind has an entry in the type table, every
    constant has a numeric kind and the composite types resolve along an
    acyclic graph, every deep enough recursion budget gives the same
    unit. *)
Theorem generate_returns
    (msg_path package_dir package name : string) (spec : MsgSpec) :
  (∀ t, is_builtin t = true → is_Some (MSG_TYPE_TO_CPP !! t)) →
  (∀ t, t ∈ numeric_kinds → parse_type t = (t, false, None)) →
  get_dir_pkg msg_path = (package_dir, package) →
  load_from_file msg_path = inr (name, spec) →
  Forall (λ c, const_type c ∈ numeric_kinds) (constants spec) →
  resolves spec package →
  ∃ fuel u, ∀ n, (fuel ≤ n)%nat → generate n msg_path = Ret u.
Proof.
  intros Htable Hparse Hdir Hload Hcs Hres.
  destruct (all_fields_map (fields spec)) as [cpps Hcpps];
    [intros type; by apply msg_type_to_cpp_exhaustive|].
  assert (∃ struct, write_struct "" spec package name = Ret struct)
    as [struct Hstruct].
  { unfold write_struct, write_members.
    rewrite (write_members_mapped _ _ _ Hcpps). cbn [mbind outcome_bind].
    unfold write_constants.
    destruct (for_each_constants_numeric _ "" Hparse Hcs) as (cs & _ & ->).
    cbn [mbind outcome_bind]. by eexists. }
  destruct (resolves_total _ _ Hres) as (b & fuel & Hfuel).
  eexists fuel, _. intros n Hn. unfold generate.
  rewrite Hdir, Hload. cbn [of_sum mbind outcome_bind].
  rewrite write_struct_prefix, Hstruct. cbn [prepend mbind outcome_bind].
  unfold write_traits_bodies. rewrite (Hfuel n Hn).
  cbn [mbind outcome_bind]. reflexivity.
Qed.

(** ** The driver *)

Lemma generate_each_app (fuel : nat) (args1 args2 : list string)
    (fs : gmap string string) :
  generate_each fuel (args1 ++ args2) fs
  = match generate_each fuel args1 fs with
    | (fs', Ret _) => generate_each fuel args2 fs'
    | (fs', Raise e) => (fs', Raise e)
    | (fs', OutOfFuel) => (fs', OutOfFuel)
    end.
Proof.
  revert fs. induction args1 as [|arg args1 IH]; intros fs; [done|].
  cbn [generate_each app]. destruct (generate fuel arg); [apply IH|done..].
Qed.

Lemma generate_each_all (fuel : nat) (args : list string)
    (units : list OutputUnit) (fs : gmap string string) :
  Forall2 (λ arg u, generate fuel arg = Ret u) args units →
  generate_each fuel args fs = (foldl write_file fs units, Ret ()).
Proof.
  intros Hall. revert fs.
  induction Hall as [|arg u args units Hu _ IH]; intros fs; [done|].
  cbn [generate_each foldl]. rewrite Hu. apply IH.
Qed.

(** X12: [generate_messages] skips the program name and generates the
    arguments in order; at the first argument on which [generate] raises
    it stops with that exception: the files of the arguments before it
    have been written, the arguments after it are not touched. *)
Theorem generate_messages_stops_at_first_failure (fuel : nat)
    (prog arg : string) (pre post : list string) (units : list OutputUnit)
    (e : exn) (fs : gmap string string) :
  Forall2 (λ arg u, generate fuel arg = Ret u) pre units →
  generate fuel arg = Raise e →
  generate_messages fuel (prog :: pre ++ arg :: post) fs
  = (foldl write_file fs units, Raise e).
Proof.
  intros Hpre Harg. unfold generate_messages.
  change (drop 1 (prog :: pre ++ arg :: post)) with (pre ++ arg :: post).
  rewrite generate_each_app, (generate_each_all _ _ _ _ Hpre).
  cbn [generate_each]. by rewrite Harg.
Qed.

(** X13: when [generate] returns on every argument, [generate_messages]
    writes each unit at its path, a later unit replacing an earlier one
    at the same path; with only the program name, or no argument at all,
    it writes nothing. *)
Theorem generate_messages_writes_all (fuel : nat)
    (prog : string) (args : list string) (units : list OutputUnit)
    (fs : gmap string string) :
  Forall2 (λ arg u, generate fuel arg = Ret u) args units →
  generate_messages fuel (prog :: args) fs = (foldl write_file fs units, Ret ())
  ∧ generate_messages fuel [] fs = (fs, Ret ())
  ∧ (∀ u, foldl write_file fs (units ++ [u]) !! unit_path u
          = Some (unit_text u))
  ∧ (∀ path, path ∉ unit_path <$> units →
             foldl write_file fs units !! path = fs !! path).
Proof.
  intros Hall. split_and!.
  - unfold generate_messages. change (drop 1 (prog :: args)) with args.
    by apply generate_each_all.
  - done.
  - intros u. rewrite foldl_app. cbn [foldl]. unfold write_file at 1.
    apply lookup_insert_eq.
  - clear Hall. revert fs.
    induction units as [|u units IH]; intros fs path Hpath; [done|].
    cbn [foldl]. rewrite fmap_cons, not_elem_of_cons in Hpath.
    destruct Hpath as [Hne Hpath]. rewrite IH by done.
    unfold write_file. by rewrite lookup_insert_ne.
Qed.

(** ** More on the fixed-length analysis *)

(** X14: one variable-length array or one string field settles the verdict:
    [is_fixed_length] returns False at once, without looking up any
    composite type, so even a reference that does not resolve goes
    unnoticed. *)
Theorem is_fixed_length_variable_field (n : nat) (spec : MsgSpec)
    (package type : string) :
  type ∈ (fields spec).*1 →
  (is_array_of type = true ∧ array_len_of type = None)
  ∨ base_type_of type = "string" →
  is_fixed_length (S n) spec package = Ret false.
Proof.
  intros Hin Hvar. cbn [is_fixed_length].
  assert (collect_types (fields spec) [] = None) as ->; [|done].
  apply collect_types_None. exists type. split; [done|].
  unfold variable_length_type.
  destruct Hvar as [[Harr Hlen]|Hstr].
  - rewrite Harr, Hlen. reflexivity.
  - rewrite (bool_decide_eq_true_2 _ Hstr). apply orb_true_r.
Qed.

(** X15: a schema whose fields are all builtin, none of them a string or a
    variable-length array, is fixed-length, and so is the schema without
    fields; no lookup is made and one level of recursion is enough. *)
Theorem is_fixed_length_builtin_fields (n : nat) (spec : MsgSpec)
    (package : string) :
  (∀ type, type ∈ (fields spec).*1 →
     is_builtin (base_type_of type) = true
     ∧ base_type_of type ≠ "string"
     ∧ ¬ (is_array_of type = true ∧ array_len_of type = None)) →
  is_fixed_length (S n) spec package = Ret true.
Proof.
  intros Hall. cbn [is_fixed_length].
  assert (collect_types (fields spec) []
          = Some (composite_types (fields spec))) as ->.
  { apply (proj2 (collect_types_Some_iff spec)). intros type Ht.
    apply variable_length_type_false. by destruct (Hall type Ht) as (_ & ? & ?). }
  assert (composite_types (fields spec) = []) as ->.
  { apply elem_of_nil_inv. intros b.
    rewrite elem_of_composite_types. intros (type & Ht & <- & Hb).
    destruct (Hall type Ht) as (Hb' & _). congruence. }
  by rewrite set_of_types_nil.
Qed.

Lemma NoDup_all_equal (l : list string) (t : string) :
  NoDup l → t ∈ l → (∀ x, x ∈ l → x = t) → l = [t].
Proof.
  intros Hnd Hin Hall. destruct l as [|x l]; [by apply elem_of_nil in Hin|].
  assert (x = t) as -> by (apply Hall; by left).
  destruct l as [|y l]; [done|].
  assert (y = t) as -> by (apply Hall; right; by left).
  apply NoDup_cons in Hnd as [Hnot _]. destruct Hnot. by left.
Qed.

(** X17: the recursion has no cycle guard: on a schema without
    variable-length fields whose only composite type is the schema itself,
    no recursion depth is enough for [is_fixed_length] to come back. *)
Theorem is_fixed_length_self_reference (fuel : nat) (spec : MsgSpec)
    (package t : string) (r : string * MsgSpec) :
  (∀ type, type ∈ (fields spec).*1 →
     base_type_of type ≠ "string"
     ∧ ¬ (is_array_of type = true ∧ array_len_of type = None)) →
  t ∈ composite_types (fields spec) →
  (∀ b, b ∈ composite_types (fields spec) → b = t) →
  load_by_type t (lookup_package t package) = inr r →
  r.2 = spec → lookup_package t package = package →
  is_fixed_length fuel spec package = OutOfFuel.
Proof.
  intros Hfixed Hin Hall Hload Hself Hpkg.
  induction fuel as [|fuel IH]; [done|].
  cbn [is_fixed_length].
  assert (collect_types (fields spec) []
          = Some (composite_types (fields spec))) as ->.
  { apply (proj2 (collect_types_Some_iff spec)). intros type Ht.
    apply variable_length_type_false. by destruct (Hfixed type Ht). }
  rewrite (NoDup_all_equal (set_of_types (composite_types (fields spec))) t).
  - rewrite check_types_cons, Hload, Hself, Hpkg. by rewrite IH.
  - apply NoDup_set_of_types.
  - by apply elem_of_set_of_types.
  - intros b Hb. rewrite elem_of_set_of_types in Hb. by apply Hall.
Qed.

(** ** More on the definition text *)

Lemma split_app (sep : ascii) (s t : string) :
  split sep (s +:+ String sep t) = split sep s ++ split sep t.
Proof.
  induction s as [|c s IH].
  - rewrite append_nil_l. cbn. by destruct (decide (sep = sep)).
  - rewrite append_cons. cbn [split]. rewrite IH.
    destruct (decide (c = sep)); [done|].
    pose proof (split_nonempty sep s) as Hne.
    by destruct (split sep s).
Qed.

(** X18: the escaped text is built line by line: for a definition made of
    two texts joined by a newline it is the escaped first text followed
    by the escaped second one. *)
Theorem compute_full_text_escaped_joins (d d1 d2 : gendeps_dict) :
  compute_full_text d
  = compute_full_text d1 +:+ NL +:+ compute_full_text d2 →
  compute_full_text_escaped d
  = compute_full_text_escaped d1 +:+ compute_full_text_escaped d2.
Proof.
  intros Htext. rewrite !compute_full_text_escaped_fragments, Htext.
  change (compute_full_text d1 +:+ NL +:+ compute_full_text d2)
    with (compute_full_text d1 +:+ String newline (compute_full_text d2)).
  by rewrite split_app, fmap_app, concat_append.
Qed.

(** ** More on the constructor *)

(** X19: the initializer list opens with a colon exactly once, on the first
    non-array field; every later non-array field continues it with a
    comma. *)
Theorem write_constructor_leads (s : StringIO) (msg : string) (spec : MsgSpec)
    (f : string * string) (rest : list (string * string)) :
  scalar_fields (fields spec) = f :: rest →
  write_constructor s msg spec
  = s +:+ "  " +:+ msg +:+ "()" +:+ NL
      +:+ "  : " +:+ initializer_body f
      +:+ concat ((λ g, "  , " +:+ initializer_body g) <$> rest)
      +:+ "  {" +:+ NL +:+ concat (fill_stmt <$> filled_arrays (fields spec))
      +:+ "  }" +:+ NL +:+ NL.
Proof.
  intros Hscalar. rewrite write_constructor_text.
  unfold constructor_text, initializer_list. rewrite Hscalar.
  cbn [imap concat]. unfold initializer_entry at 1, initializer_body at 1.
  rewrite <-default_value_family. cbn [Nat.eqb].
  assert (∀ k l, concat (imap (λ i g, initializer_entry (S k + i) g.2
                     (family_literal (family_of (base_type_of g.1)))) l)
                 = concat ((λ g, "  , " +:+ initializer_body g) <$> l)) as Hrest.
  { intros k l. revert k. induction l as [|g l IH]; intros k; [done|].
    cbn [imap concat fmap list_fmap].
    rewrite (imap_ext _ (λ i g, initializer_entry (S (S k) + i) g.2
               (family_literal (family_of (base_type_of g.1)))));
      [|intros i x _; cbn; do 2 f_equal; lia].
    rewrite IH. unfold initializer_entry, initializer_body.
    rewrite <-default_value_family. cbn [Nat.eqb Nat.add].
    by rewrite ?append_assoc. }
  rewrite (imap_ext _ (λ i g, initializer_entry (1 + i) g.2
             (family_literal (family_of (base_type_of g.1)))))
    by done.
  rewrite Hrest. by rewrite ?append_assoc.
Qed.

(** X20: a schema without non-array fields, the empty schema among them,
    gets a constructor without initializer list: no colon is written. *)
Theorem write_constructor_without_scalars (s : StringIO) (msg : string)
    (spec : MsgSpec) :
  (∀ type, type ∈ (fields spec).*1 → is_array_of type = true) →
  write_constructor s msg spec
  = s +:+ "  " +:+ msg +:+ "()" +:+ NL
      +:+ "  {" +:+ NL +:+ concat (fill_stmt <$> filled_arrays (fields spec))
      +:+ "  }" +:+ NL +:+ NL.
Proof.
  intros Harr. rewrite write_constructor_text.
  unfold constructor_text, initializer_list.
  assert (scalar_fields (fields spec) = []) as ->; [|done].
  apply elem_of_nil_inv. intros f. unfold scalar_fields.
  rewrite list_elem_of_filter. intros [Hf Hin].
  rewrite (Harr f.1) in Hf; [done|].
  apply list_elem_of_fmap. by exists f.
Qed.

End MoreProperties.

(** * Two runs of the generator *)

Lemma foldl_pointwise {A B : Type} (f g : A → B → A) (a : A) (l : list B) :
  (∀ a x, f a x = g a x) → foldl f a l = foldl g a l.
Proof.
  intros Hfg. revert a. induction l as [|x l IH]; intros a; [done|].
  cbn [foldl]. by rewrite Hfg, IH.
Qed.

Lemma for_each_pointwise {A B : Type} (f g : A → B → outcome A) (a : A)
    (l : list B) :
  (∀ a x, f a x = g a x) → for_each f a l = for_each g a l.
Proof.
  intros Hfg. revert a. induction l as [|x l IH]; intros a; [done|].
  cbn [for_each]. rewrite Hfg.
  destruct (g a x); cbn [mbind outcome_bind]; [apply IH|done..].
Qed.

Section TwoRuns.

Context (R1 R2 : Roslib) `{P : PySet}.
Hypothesis Hhelpers : same_helpers R1 R2.
Hypothesis Hlookup : same_lookup R1 R2.

Lemma msg_type_to_cpp_same (type : string) :
  msg_type_to_cpp (R := R1) type = msg_type_to_cpp (R := R2) type.
Proof.
  destruct Hhelpers as (Hparse & Hbuiltin & Hheader & _).
  unfold msg_type_to_cpp. rewrite Hparse.
  destruct (parse_type type) as [[base_type is_array] array_len].
  by rewrite Hbuiltin, Hheader.
Qed.

Lemma write_includes_same (s : StringIO) (spec : MsgSpec) :
  write_includes (R := R1) s spec = write_includes (R := R2) s spec.
Proof.
  destruct Hhelpers as (Hparse & Hbuiltin & Hheader & _).
  unfold write_includes. f_equal. apply foldl_pointwise.
  intros s' [type name]. rewrite Hparse.
  destruct (parse_type type) as [[base_type is_array] array_len].
  by rewrite Hbuiltin, Hheader.
Qed.

Lemma write_initializers_same (fs : list (string * string)) (s : StringIO)
    (i : nat) :
  write_initializers (R := R1) s i fs = write_initializers (R := R2) s i fs.
Proof.
  destruct Hhelpers as (Hparse & _).
  revert s i. induction fs as [|[type name] fs IH]; intros s i; [done|].
  cbn [write_initializers]. rewrite Hparse.
  destruct (parse_type type) as [[base_type is_array] array_len].
  by rewrite !IH.
Qed.

Lemma write_constructor_same (s : StringIO) (msg : string) (spec : MsgSpec) :
  write_constructor (R := R1) s msg spec
  = write_constructor (R := R2) s msg spec.
Proof.
  destruct Hhelpers as (Hparse & _).
  unfold write_constructor. rewrite write_initializers_same. f_equal.
  apply foldl_pointwise. intros s' [type name]. by rewrite Hparse.
Qed.

Lemma write_struct_same (s : StringIO) (spec : MsgSpec) (pkg msg : string) :
  write_struct (R := R1) s spec pkg msg = write_struct (R := R2) s spec pkg msg.
Proof.
  unfold write_struct, write_members, write_constants.
  rewrite write_constructor_same.
  rewrite (for_each_pointwise
             (λ s '(type, name), write_member (R := R1) s type name)
             (λ s '(type, name), write_member (R := R2) s type name)).
  - destruct (for_each _ _ (fields spec)) as [s1|e|];
      cbn [mbind outcome_bind]; [|done..].
    rewrite (for_each_pointwise (write_constant (R := R1))
               (write_constant (R := R2))); [done|].
    intros s' c. unfold write_constant. by rewrite msg_type_to_cpp_same.
  - intros s' [type name]. unfold write_member.
    by rewrite msg_type_to_cpp_same.
Qed.

Lemma collect_types_same (fs : list (string * string)) (acc : list string) :
  collect_types (R := R1) fs acc = collect_types (R := R2) fs acc.
Proof.
  destruct Hhelpers as (Hparse & Hbuiltin & _).
  revert acc. induction fs as [|[type name] fs IH]; intros acc; [done|].
  cbn [collect_types]. rewrite Hparse.
  destruct (parse_type type) as [[base_type is_array] array_len].
  by rewrite Hbuiltin, !IH.
Qed.

Lemma check_types_same (rec1 rec2 : MsgSpec → string → outcome bool)
    (package : string) (types : list string) :
  (∀ spec pkg, rec1 spec pkg = rec2 spec pkg) →
  check_types (R := R1) rec1 package types
  = check_types (R := R2) rec2 package types.
Proof.
  destruct Hhelpers as (_ & _ & _ & Hname). intros Hrec.
  induction types as [|type types IH]; [done|].
  cbn [check_types]. rewrite Hname.
  destruct (package_resource_name type) as [pkg name].
  rewrite Hlookup. destruct (load_by_type _ _) as [e|[n new_spec]]; [done|].
  cbn [of_sum mbind outcome_bind]. rewrite Hrec.
  destruct (rec2 new_spec _) as [b|e|]; cbn [mbind outcome_bind]; [|done..].
  by rewrite IH.
Qed.

Lemma is_fixed_length_same (fuel : nat) (spec : MsgSpec) (package : string) :
  is_fixed_length (R := R1) fuel spec package
  = is_fixed_length (R := R2) fuel spec package.
Proof.
  revert spec package. induction fuel as [|fuel IH]; intros spec package;
    [done|].
  cbn [is_fixed_length]. rewrite collect_types_same.
  destruct (collect_types _ []) as [types|]; [|done].
  by apply check_types_same.
Qed.

Lemma write_traits_bodies_same (fuel : nat) (s : StringIO) (spec : MsgSpec)
    (pkg msg : string) :
  same_digest R1 R2 spec pkg →
  write_traits_bodies (R := R1) fuel s spec pkg msg
  = write_traits_bodies (R := R2) fuel s spec pkg msg.
Proof.
  intros [Hmd5 Htext]. unfold write_traits_bodies, compute_full_text_escaped.
  by rewrite Hmd5, Htext, is_fixed_length_same.
Qed.

(** With the same recursion budget the two runs do the same. *)
Lemma generate_same (fuel : nat) (msg_path : string) :
  same_input R1 R2 msg_path →
  generate (R := R1) fuel msg_path = generate (R := R2) fuel msg_path.
Proof.
  intros (Hdir & Hload & Hdigest). unfold generate.
  rewrite <-Hdir, <-Hload.
  destruct (get_dir_pkg msg_path) as [package_dir package].
  destruct (load_from_file msg_path) as [e|[name spec]] eqn:Hfile; [done|].
  cbn [of_sum mbind outcome_bind].
  rewrite write_includes_same, write_struct_same.
  destruct (write_struct _ _ _ _) as [s|e|]; cbn [mbind outcome_bind];
    [|done..].
  rewrite write_traits_bodies_same; [done|].
  by apply (Hdigest name spec).
Qed.

End TwoRuns.


Section MoreRuns.

Local Existing Instance RoslibModel.gset_order.

Import Examples Workspace.

Lemma geometry_table_exhaustive (t : string) :
  is_builtin (Roslib := geometry) t = true → is_Some (MSG_TYPE_TO_CPP !! t).
Proof.
  intros Hin. apply bool_decide_eq_true in Hin.
  unfold RoslibModel.BUILTIN_TYPES in Hin.
  repeat (apply elem_of_cons in Hin as [->|Hin]);
    [vm_compute; by eexists..|].
  by apply elem_of_nil in Hin.
Defined.

Lemma msg_type_to_cpp_raises_only_KeyError_witness :
  parse_type (Roslib := newer_roslib) "wstring[]" = ("wstring", true, None)
  ∧ msg_type_to_cpp (R := newer_roslib) "wstring[]" ≠ OutOfFuel
  ∧ ∀ e, msg_type_to_cpp (R := newer_roslib) "wstring[]" = Raise e
         ↔ e = KeyError "wstring"
           ∧ is_builtin (Roslib := newer_roslib) "wstring" = true
           ∧ MSG_TYPE_TO_CPP !! "wstring" = None.
Proof.
  split; [reflexivity|].
  destruct (msg_type_to_cpp_raises_only_KeyError (R := newer_roslib)
              "wstring[]" "wstring" true None eq_refl) as [Hiff Hfuel].
  split; [exact Hfuel|exact Hiff].
Defined.

Lemma msg_type_to_cpp_total_witness :
  parse_type (Roslib := geometry) "duration[]" = ("duration", true, None)
  ∧ (∀ t, is_builtin (Roslib := geometry) t = true
          → is_Some (MSG_TYPE_TO_CPP !! t))
  ∧ ∃ cpp_type, msg_type_to_cpp (R := geometry) "duration[]" = Ret cpp_type.
Proof.
  split; [reflexivity|]. split; [exact geometry_table_exhaustive|].
  destruct (msg_type_to_cpp_total (R := geometry) "duration[]" "duration"
              true None eq_refl geometry_table_exhaustive)
    as (cpp_type & Hcpp & _).
  by exists cpp_type.
Defined.

Lemma msg_type_to_cpp_array_wrapping_witness :
  msg_type_to_cpp (R := geometry) "uint8" = Ret "uint8_t"
  ∧ msg_type_to_cpp (R := geometry) "uint8[]" = Ret "std::vector<uint8_t>"
  ∧ msg_type_to_cpp (R := geometry) "uint8[4]"
    = Ret "boost::array<uint8_t, 4>".
Proof.
  split; [reflexivity|].
  exact (msg_type_to_cpp_array_wrapping (R := geometry)
           "uint8" "uint8[]" "uint8[4]" "uint8" "uint8_t" 4 None
           eq_refl eq_refl eq_refl eq_refl).
Defined.

Lemma Path_fields_map :
  Forall2 (λ f cpp_type, msg_type_to_cpp (R := geometry) f.1 = Ret cpp_type)
          (fields Path) ["Segment"; "boost::array<uint8_t, 4>"].
Proof. repeat constructor. Defined.

Lemma write_members_declares_each_field_witness :
  write_members (R := geometry) "" Path
  = Ret (member_decl "Segment" "first"
         +:+ member_decl "boost::array<uint8_t, 4>" "flags").
Proof.
  exact (write_members_declares_each_field (R := geometry) "" Path _
           Path_fields_map).
Defined.

Lemma write_members_first_failure_witness :
  msg_type_to_cpp (R := newer_roslib) "wstring" = Raise (KeyError "wstring")
  ∧ write_members (R := newer_roslib) "" Wide = Raise (KeyError "wstring").
Proof.
  split; [reflexivity|].
  apply (write_members_first_failure (R := newer_roslib) "" Wide
           [("int32", "id")] [("Missing", "m")] ("wstring", "text")
           ["int32_t"] (KeyError "wstring")).
  - reflexivity.
  - repeat constructor.
  - reflexivity.
Defined.

Lemma write_constants_binds_each_witness :
  Forall (λ c, const_type c ∈ numeric_kinds) (constants Path)
  ∧ ∃ cpps, write_constants (R := geometry) "" Path
            = Ret ("" +:+ concat (zip_with
                                    (λ cpp_type c,
                                       constant_binding cpp_type (const_name c)
                                                        (const_val c))
                                    cpps (constants Path))
                      +:+ NL).
Proof.
  assert (Forall (λ c, const_type c ∈ numeric_kinds) (constants Path)) as Hcs.
  { by repeat constructor. }
  split; [done|].
  destruct (write_constants_binds_each (R := geometry) "" Path
              geometry_parses_numeric_kinds Hcs) as (cpps & _ & Hw).
  by exists cpps.
Defined.

Lemma Flags_first_constant_numeric :
  Forall (λ c, const_type c ∈ numeric_kinds) [mkConstant "uint8" "NONE" "0"].
Proof.
  by repeat constructor.
Defined.

Lemma bool_not_numeric : "bool" ∉ numeric_kinds.
Proof.
  unfold numeric_kinds. intros Hin.
  repeat (apply elem_of_cons in Hin as [Hin|Hin]; [discriminate Hin|]).
  by apply elem_of_nil in Hin.
Defined.

Lemma write_constants_first_unsupported_witness :
  write_constants (R := geometry) "" Flags
  = Raise (ValueError "bool not supported as a constant").
Proof.
  exact (write_constants_first_unsupported (R := geometry) "" Flags
           [mkConstant "uint8" "NONE" "0"] [mkConstant "int32" "ALL" "255"]
           (mkConstant "bool" "ON" "1")
           geometry_parses_numeric_kinds eq_refl
           Flags_first_constant_numeric bool_not_numeric).
Defined.

Lemma generate_layout_witness :
  ∃ u, generate (R := geometry) 3 "geometry/msg/Path.msg" = Ret u
       ∧ unit_path u = "geometry/msg/cpp/geometry/Path.h".
Proof.
  destruct (write_struct (R := geometry) "" Path "geometry" "Path")
    as [struct|e|] eqn:Hstruct; [|vm_compute in Hstruct; discriminate..].
  destruct (write_traits_bodies (R := geometry) 3 "" Path "geometry" "Path")
    as [traits|e|] eqn:Htraits; [|vm_compute in Htraits; discriminate..].
  eexists. split.
  - exact (generate_layout (R := geometry) 3 "geometry/msg/Path.msg"
             "geometry" "geometry" "Path" Path struct traits
             eq_refl eq_refl Hstruct Htraits).
  - reflexivity.
Defined.

Lemma generate_aborts_on_unsupported_constant_witness :
  generate (R := workspace) 0 "geometry/msg/Flags.msg"
  = Raise (ValueError "bool not supported as a constant").
Proof.
  apply (generate_aborts_on_unsupported_constant (R := workspace) 0
           "geometry/msg/Flags.msg" "geometry" "geometry" "Flags" Flags
           ["uint8_t"] [mkConstant "uint8" "NONE" "0"]
           [mkConstant "int32" "ALL" "255"] (mkConstant "bool" "ON" "1")).
  - exact geometry_parses_numeric_kinds.
  - reflexivity.
  - reflexivity.
  - repeat constructor.
  - reflexivity.
  - exact Flags_first_constant_numeric.
  - exact bool_not_numeric.
Defined.

Lemma generate_returns_witness :
  resolves (R := geometry) Path "geometry"
  ∧ ∃ fuel u, ∀ n, (fuel ≤ n)%nat →
      generate (R := geometry) n "geometry/msg/Path.msg" = Ret u.
Proof.
  split; [exact Path_resolves|].
  apply (generate_returns (R := geometry) "geometry/msg/Path.msg"
           "geometry" "geometry" "Path" Path).
  - exact geometry_table_exhaustive.
  - exact geometry_parses_numeric_kinds.
  - reflexivity.
  - reflexivity.
  - by repeat constructor.
  - exact Path_resolves.
Defined.

Lemma generate_messages_stops_at_first_failure_witness :
  ∃ u, generate (R := workspace) 3 "geometry/msg/Path.msg" = Ret u
       ∧ generate_messages (R := workspace) 3
           ["genmsg_cpp.py"; "geometry/msg/Path.msg"; "geometry/msg/Flags.msg";
            "geometry/msg/Point.msg"] ∅
         = ({[unit_path u := unit_text u]},
            Raise (ValueError "bool not supported as a constant")).
Proof.
  destruct (generate (R := workspace) 3 "geometry/msg/Path.msg")
    as [u|e|] eqn:Hu; [|vm_compute in Hu; discriminate..].
  exists u. split; [done|].
  apply (generate_messages_stops_at_first_failure (R := workspace) 3
           "genmsg_cpp.py" "geometry/msg/Flags.msg"
           ["geometry/msg/Path.msg"] ["geometry/msg/Point.msg"] [u]).
  - by repeat constructor.
  - reflexivity.
Defined.

Lemma generate_messages_writes_all_witness :
  ∃ u1 u2,
    generate_messages (R := workspace) 3
      ["genmsg_cpp.py"; "geometry/msg/Path.msg"; "geometry/msg/Point.msg"] ∅
    = (write_file (write_file ∅ u1) u2, Ret ())
    ∧ unit_path u1 = "geometry/msg/cpp/geometry/Path.h"
    ∧ unit_path u2 = "geometry/msg/cpp/geometry/Point.h".
Proof.
  destruct (generate (R := workspace) 3 "geometry/msg/Path.msg")
    as [u1|e|] eqn:H1; [|vm_compute in H1; discriminate..].
  destruct (generate (R := workspace) 3 "geometry/msg/Point.msg")
    as [u2|e|] eqn:H2; [|vm_compute in H2; discriminate..].
  exists u1, u2. split_and!.
  - apply (generate_messages_writes_all (R := workspace) 3 "genmsg_cpp.py"
             ["geometry/msg/Path.msg"; "geometry/msg/Point.msg"] [u1; u2]).
    by repeat constructor.
  - vm_compute in H1. by injection H1 as <-.
  - vm_compute in H2. by injection H2 as <-.
Defined.

Lemma is_fixed_length_variable_field_witness :
  load_by_type (Roslib := geometry) "Missing" "geometry"
  = inl (MsgSpecException "Cannot locate message type Missing")
  ∧ is_fixed_length (R := geometry) 1 Labelled "geometry" = Ret false.
Proof.
  split; [reflexivity|].
  apply (is_fixed_length_variable_field (R := geometry) 0 Labelled "geometry"
           "string").
  - right. left.
  - by right.
Defined.

Lemma is_fixed_length_builtin_fields_witness :
  is_fixed_length (R := geometry) 1 Point "geometry" = Ret true.
Proof.
  apply (is_fixed_length_builtin_fields (R := geometry) 0 Point "geometry").
  intros type Hin. cbn in Hin.
  repeat (apply elem_of_cons in Hin as [->|Hin];
          [split_and!; [reflexivity|discriminate|by intros [? _]]|]).
  by apply elem_of_nil in Hin.
Defined.

Lemma is_fixed_length_self_reference_witness :
  load_by_type (Roslib := workspace) "Node" "graph" = inr ("graph/Node", Node)
  ∧ is_fixed_length (R := workspace) 1000 Node "graph" = OutOfFuel.
Proof.
  split; [reflexivity|].
  apply (is_fixed_length_self_reference (R := workspace) 1000 Node "graph"
           "Node" ("graph/Node", Node)).
  - intros type Hin. cbn in Hin.
    repeat (apply elem_of_cons in Hin as [->|Hin];
            [split; [discriminate|by intros [? _]]|]).
    by apply elem_of_nil in Hin.
  - vm_compute. left.
  - intros b Hb. vm_compute in Hb.
    apply elem_of_cons in Hb as [->|Hb]; [done|by apply elem_of_nil in Hb].
  - reflexivity.
  - reflexivity.
  - reflexivity.
Defined.

Lemma compute_full_text_escaped_joins_witness :
  compute_full_text_escaped (R := geometry)
    ("", "int32 x" +:+ NL +:+ "int32 y")
  = compute_full_text_escaped (R := geometry) ("", "int32 x")
    +:+ compute_full_text_escaped (R := geometry) ("", "int32 y").
Proof.
  exact (compute_full_text_escaped_joins (R := geometry)
           ("", "int32 x" +:+ NL +:+ "int32 y") ("", "int32 x")
           ("", "int32 y") eq_refl).
Defined.

Lemma write_constructor_leads_witness :
  write_constructor (R := geometry) "" "Point" Point
  = "  Point()" +:+ NL +:+ "  :   x(0.0)" +:+ NL +:+ "  ,   y(0.0)" +:+ NL
    +:+ "  {" +:+ NL +:+ "  }" +:+ NL +:+ NL.
Proof.
  exact (write_constructor_leads (R := geometry) "" "Point" Point
           ("float64", "x") [("float64", "y")] eq_refl).
Defined.

Lemma write_constructor_without_scalars_witness :
  write_constructor (R := geometry) "" "Samples" Samples
  = "  Samples()" +:+ NL +:+ "  {" +:+ NL +:+ "    flags.assign(0);" +:+ NL
    +:+ "  }" +:+ NL +:+ NL.
Proof.
  apply (write_constructor_without_scalars (R := geometry) "" "Samples" Samples).
  intros type Hin. cbn in Hin.
  repeat (apply elem_of_cons in Hin as [->|Hin]; [reflexivity|]).
  by apply elem_of_nil in Hin.
Defined.


Lemma geometry_checkout_same_helpers : same_helpers geometry checkout.
Proof. by repeat split. Defined.

Lemma geometry_checkout_same_lookup : same_lookup geometry checkout.
Proof. by intros t pkg. Defined.

Lemma geometry_checkout_same_input :
  same_input geometry checkout "geometry/msg/Path.msg".
Proof. split_and!; [reflexivity..|]. by intros name spec _. Defined.


(** Two fields of the composite base type [geometry/Point]: with the
    second one a variable-length array the schema is not fixed-length,
    with only the first one it is. *)
Lemma is_fixed_length_variable_duplicate :
  base_type_of (R := geometry) "geometry/Point[]"
  = base_type_of (R := geometry) "geometry/Point"
  ∧ is_builtin (Roslib := geometry) "geometry/Point" = false
  ∧ fields Track = fields TrackStart ++ [("geometry/Point[]", "points")]
  ∧ is_fixed_length (R := geometry) 2 Track "geometry" = Ret false
  ∧ is_fixed_length (R := geometry) 2 TrackStart "geometry" = Ret true.
Proof. split_and!; reflexivity. Qed.

Lemma is_fixed_length_dedup_witness :
  base_type_of (R := geometry) "geometry/Point[2]"
  = base_type_of (R := geometry) "geometry/Point"
  ∧ ¬ (is_array_of (R := geometry) "geometry/Point[2]" = true
       ∧ array_len_of (R := geometry) "geometry/Point[2]" = None)
  ∧ (is_fixed_length_log (R := geometry) 2 Triangle "geometry").1
    = [("geometry/Point", "geometry")]
  ∧ is_fixed_length (R := geometry) 2 Triangle "geometry"
    = is_fixed_length (R := geometry) 2
        (mkMsgSpec [("geometry/Point", "apex"); ("uint8", "color")] [] false)
        "geometry".
Proof.
  assert (¬ (is_array_of (R := geometry) "geometry/Point[2]" = true
             ∧ array_len_of (R := geometry) "geometry/Point[2]" = None))
    as Hfixed by (by intros [_ ?]).
  split_and!; [reflexivity|exact Hfixed|reflexivity|].
  exact (proj2 (proj2 (proj2 (proj2 (proj2 (proj2
           (is_fixed_length_dedup (R := geometry) 2 Triangle "geometry"
              [] [("uint8", "color")] [] "geometry/Point" "apex"
              "geometry/Point[2]" "base" [] false eq_refl Hfixed))))))).
Defined.

End MoreRuns.
